(** * blosc/memcopy.h: the chunked copy kernel, embedded and verified

    The routines of [memcopy.h] are translated one by one into a small
    state-and-abort monad over a byte-addressed memory.  Pointers are
    integers, [unsigned] values are integers kept in [0, 2^32) with the
    wrap-around written out, and the three preprocessor switches that the
    header depends on ([UNALIGNED_OK], [__SSE2__], [NDEBUG]) are fields of a
    configuration record. *)

From Stdlib Require Import ZArith List Bool Lia.
From Stdlib.Strings Require Import Byte.
Import ListNotations.
Local Open Scope Z_scope.

(** ** Build configuration *)

Record config := mkConfig {
  UNALIGNED_OK : bool;   (* #ifdef UNALIGNED_OK *)
  SSE2 : bool;           (* #if defined(__SSE2__) *)
  NDEBUG : bool          (* assert() compiled out *)
}.

(** ** Memory, with a ghost trace of the addresses stored to *)

Definition memory := Z -> byte.

Record state := mkState {
  mem : memory;
  wlog : list Z          (* every address written so far, latest first *)
}.

Inductive outcome (A : Type) : Type :=
| Done (a : A) (s : state)     (* normal return *)
| Abort (s : state)            (* a failed assert() called abort() *)
| Timeout.                     (* the model ran out of fuel *)
Arguments Done {A} a s.
Arguments Abort {A} s.
Arguments Timeout {A}.

Definition M (A : Type) := state -> outcome A.

Definition ret {A} (a : A) : M A := fun s => Done a s.

Definition bind {A B} (c : M A) (k : A -> M B) : M B :=
  fun s => match c s with
           | Done a s' => k a s'
           | Abort s' => Abort s'
           | Timeout => Timeout
           end.

Definition timeout {A} : M A := fun _ => Timeout.

Notation "x <- c ;; k" := (bind c (fun x => k))
  (at level 61, c at next level, right associativity).
Notation "c ;; k" := (bind c (fun _ => k))
  (at level 61, right associativity).

(** [unsigned] arithmetic: 32 bits, modular. *)
Definition wrap (z : Z) : Z := z mod 2 ^ 32.

(** The addresses [p, p+1, ..., p+n-1]. *)
Fixpoint addrs (p : Z) (n : nat) : list Z :=
  match n with
  | O => []
  | S n' => p :: addrs (p + 1) n'
  end.

Definition in_block (p : Z) (n : nat) (a : Z) : bool :=
  (p <=? a) && (a <? p + Z.of_nat n).

Definition load_bytes (m : memory) (p : Z) (n : nat) : list byte :=
  map m (addrs p n).

Definition store_bytes (m : memory) (p : Z) (l : list byte) : memory :=
  fun a => if in_block p (length l) a
           then nth (Z.to_nat (a - p)) l x00
           else m a.

(** [MEMCPY(&chunk, from, n)]: read the object representation of a local. *)
Definition MEMCPY_load (from n : Z) : M (list byte) :=
  fun s => Done (load_bytes (mem s) from (Z.to_nat n)) s.

(** The state after the bytes [l] have been written at [p]. *)
Definition stored (p : Z) (l : list byte) (s : state) : state :=
  {| mem := store_bytes (mem s) p l;
     wlog := rev (addrs p (length l)) ++ wlog s |}.

(** [MEMCPY(out, &chunk, n)]: write it back. *)
Definition MEMCPY_store (out : Z) (chunk : list byte) : M unit :=
  fun s => Done tt (stored out chunk s).

(** [MEMSET(out, c, n)]. *)
Definition MEMSET (out : Z) (c : byte) (n : Z) : M unit :=
  MEMCPY_store out (repeat c (Z.to_nat n)).

(** [*p] for an [unsigned char *p]. *)
Definition deref (p : Z) : M byte := fun s => Done (mem s p) s.

(** [*p = c]. *)
Definition assign (p : Z) (c : byte) : M unit := MEMCPY_store p [c].

(** ** Fixed-width copies *)

Definition copy_1_bytes (out from : Z) : M Z :=
  c <- deref from ;;
  assign out c ;;
  ret (out + 1).

Definition copy_2_bytes (out from : Z) : M Z :=
  let sz := 2 in
  chunk <- MEMCPY_load from sz ;;
  MEMCPY_store out chunk ;;
  ret (out + sz).

Definition copy_3_bytes (out from : Z) : M Z :=
  out <- copy_1_bytes out from ;;
  copy_2_bytes out (from + 1).

Definition copy_4_bytes (out from : Z) : M Z :=
  let sz := 4 in
  chunk <- MEMCPY_load from sz ;;
  MEMCPY_store out chunk ;;
  ret (out + sz).

Definition copy_5_bytes (out from : Z) : M Z :=
  out <- copy_1_bytes out from ;;
  copy_4_bytes out (from + 1).

Definition copy_6_bytes (out from : Z) : M Z :=
  out <- copy_2_bytes out from ;;
  copy_4_bytes out (from + 2).

Definition copy_7_bytes (out from : Z) : M Z :=
  out <- copy_3_bytes out from ;;
  copy_4_bytes out (from + 3).

Definition copy_8_bytes (out from : Z) : M Z :=
  chunk <- MEMCPY_load from 8 ;;
  MEMCPY_store out chunk ;;
  ret (out + 8).

(** [_mm_loadu_si128] / [_mm_storeu_si128]: an unaligned 16-byte unit. *)
Definition copy_16_bytes (out from : Z) : M Z :=
  chunk <- MEMCPY_load from 16 ;;
  MEMCPY_store out chunk ;;
  ret (out + 16).

(** ** Fall-through switches

    In [switch (by8) { case 7: ... case 1: ... default: ... }] without
    [break], the statements under [case k] run when the switch jumped to a
    label [j] with [k <= j <= 7]; the statements under [default] always
    run. *)
Definition reached (by8 k : Z) : bool := (k <=? by8) && (by8 <=? 7).

Definition when {A} (b : bool) (c : A -> M A) (a : A) : M A :=
  if b then c a else ret a.

(** ** The routines

    Every routine is parameterised by the build configuration and by the
    fuel that bounds each of its loops; a loop that uses its fuel up ends
    the call in [Timeout]. *)
Section Routines.

Variable cfg : config.
Variable fuel : nat.

(** [assert(b)]: nothing with [NDEBUG], [abort()] on a false [b] without. *)
Definition assert (b : bool) : M unit :=
  fun s => if b || NDEBUG cfg then Done tt s else Abort s.

(** *** The bulk copier, generic in the chunk primitive

    [chunk_memcpy] and [chunk_memcpy_16] have the same text up to the copy
    primitive and [sz]. *)
Section Generic.
Variable copy_chunk : Z -> Z -> M Z.
Variable sz : Z.

(** [out = copy_chunk(out, from); from += sz;] *)
Definition step (acc : Z * Z) : M (Z * Z) :=
  out <- copy_chunk (fst acc) (snd acc) ;;
  ret (out, snd acc + sz).

(** [k] such steps in a row, then [K]: the shape of every unrolled run
    below. *)
Fixpoint steps_then {B} (k : nat) (acc : Z * Z) (K : Z * Z -> M B) : M B :=
  match k with
  | O => K acc
  | S k' => acc <- step acc ;; steps_then k' acc K
  end.

Definition memcpy_switch (by8 : Z) (acc : Z * Z) : M (Z * Z) :=
  acc <- when (reached by8 7) step acc ;;
  acc <- when (reached by8 6) step acc ;;
  acc <- when (reached by8 5) step acc ;;
  acc <- when (reached by8 4) step acc ;;
  acc <- when (reached by8 3) step acc ;;
  acc <- when (reached by8 2) step acc ;;
  acc <- when (reached by8 1) step acc ;;
  ret acc.

(** [while (len) { eight steps; len -= 8; }] *)
Fixpoint memcpy_loop (n : nat) (len : Z) (acc : Z * Z) : M (Z * Z) :=
  match n with
  | O => timeout
  | S n' =>
      if len =? 0 then ret acc
      else
        acc <- step acc ;;
        acc <- step acc ;;
        acc <- step acc ;;
        acc <- step acc ;;
        acc <- step acc ;;
        acc <- step acc ;;
        acc <- step acc ;;
        acc <- step acc ;;
        memcpy_loop n' (wrap (len - 8)) acc
  end.

Definition chunk_memcpy_gen (out from len : Z) : M Z :=
  let rem := len mod sz in
  assert (sz <=? len) ;;
  copy_chunk out from ;;
  let len := len / sz in
  let out := out + rem in
  let from := from + rem in
  let by8 := len mod 8 in
  let len := wrap (len - by8) in
  acc <- memcpy_switch by8 (out, from) ;;
  acc <- memcpy_loop fuel len acc ;;
  ret (fst acc).
End Generic.

Definition chunk_memcpy : Z -> Z -> Z -> M Z :=
  chunk_memcpy_gen copy_8_bytes 8.

Definition chunk_memcpy_16 : Z -> Z -> Z -> M Z :=
  chunk_memcpy_gen copy_16_bytes 16.

(** *** Short copies *)

(** [while (len--) { *out++ = *from++; }] *)
Fixpoint copy_while (n : nat) (out from len : Z) : M Z :=
  match n with
  | O => timeout
  | S n' =>
      let c := len in
      let len := wrap (len - 1) in
      if c =? 0 then ret out
      else
        b <- deref from ;;
        assign out b ;;
        copy_while n' (out + 1) (from + 1) len
  end.

Definition copy_bytes (out from len : Z) : M Z :=
  assert (len <? 8) ;;
  if negb (UNALIGNED_OK cfg) then copy_while fuel out from len
  else
    match len with
    | 7 => copy_7_bytes out from
    | 6 => copy_6_bytes out from
    | 5 => copy_5_bytes out from
    | 4 => copy_4_bytes out from
    | 3 => copy_3_bytes out from
    | 2 => copy_2_bytes out from
    | 1 => copy_1_bytes out from
    | 0 => ret out
    | _ => assert false ;; ret out
    end.

(** The three innermost [case] bodies of [set_bytes]; a [break] out of an
    inner [switch] lands on the next [case] label of the outer one. *)
Definition set_bytes_case1 (out from len : Z) : M Z :=
  assert ((2 <=? len) && (len <=? 7)) ;;
  c <- deref from ;;
  match len with
  | 7 => MEMSET out c 7 ;; ret (out + 7)
  | 6 => MEMSET out c 6 ;; ret (out + 6)
  | 5 => MEMSET out c 5 ;; ret (out + 5)
  | 4 => MEMSET out c 4 ;; ret (out + 4)
  | 3 => MEMSET out c 3 ;; ret (out + 3)
  | 2 => MEMSET out c 2 ;; ret (out + 2)
  | _ => assert false ;; ret out
  end.

Definition set_bytes_case2 (out from len : Z) : M Z :=
  assert ((3 <=? len) && (len <=? 7)) ;;
  out <- copy_2_bytes out from ;;
  match len with
  | 7 => out <- copy_4_bytes out from ;;
         out <- copy_1_bytes out from ;;
         ret out
  | 6 => out <- copy_4_bytes out from ;;
         ret out
  | 5 => out <- copy_2_bytes out from ;;
         out <- copy_1_bytes out from ;;
         ret out
  | 4 => out <- copy_2_bytes out from ;;
         ret out
  | 3 => out <- copy_1_bytes out from ;;
         ret out
  | _ => assert false ;; set_bytes_case1 out from len
  end.

Definition set_bytes_case3 (out from len : Z) : M Z :=
  assert ((4 <=? len) && (len <=? 7)) ;;
  out <- copy_3_bytes out from ;;
  match len with
  | 7 => copy_4_bytes out from
  | 6 => copy_3_bytes out from
  | 5 => copy_2_bytes out from
  | 4 => copy_1_bytes out from
  | _ => assert false ;; set_bytes_case2 out from len
  end.

Definition set_bytes (out from dist len : Z) : M Z :=
  assert (len <? 8) ;;
  if negb (UNALIGNED_OK cfg) then copy_while fuel out from len
  else if len <=? dist then copy_bytes out from len
  else
    match dist with
    | 6 => assert (len =? 7) ;;
           out <- copy_6_bytes out from ;;
           copy_1_bytes out from
    | 5 => assert ((len =? 6) || (len =? 7)) ;;
           out <- copy_5_bytes out from ;;
           copy_bytes out from (wrap (len - 5))
    | 4 => assert ((len =? 5) || (len =? 6) || (len =? 7)) ;;
           out <- copy_4_bytes out from ;;
           copy_bytes out from (wrap (len - 4))
    | 3 => set_bytes_case3 out from len
    | 2 => set_bytes_case2 out from len
    | 1 => set_bytes_case1 out from len
    | _ => ret out
    end.

(** *** Distance-1 fill *)

(** [MEMSET(out, c, sz); out += sz;] *)
Definition fill_step (c : byte) (sz : Z) (out : Z) : M Z :=
  MEMSET out c sz ;;
  ret (out + sz).

Fixpoint fills_then {B} (k : nat) (c : byte) (sz out : Z) (K : Z -> M B) : M B :=
  match k with
  | O => K out
  | S k' => out <- fill_step c sz out ;; fills_then k' c sz out K
  end.

Definition memset_switch (c : byte) (sz by8 out : Z) : M Z :=
  out <- when (reached by8 7) (fill_step c sz) out ;;
  out <- when (reached by8 6) (fill_step c sz) out ;;
  out <- when (reached by8 5) (fill_step c sz) out ;;
  out <- when (reached by8 4) (fill_step c sz) out ;;
  out <- when (reached by8 3) (fill_step c sz) out ;;
  out <- when (reached by8 2) (fill_step c sz) out ;;
  out <- when (reached by8 1) (fill_step c sz) out ;;
  (* default: *)
  assert false ;;
  ret out.

Fixpoint memset_loop (n : nat) (c : byte) (sz len out : Z) : M Z :=
  match n with
  | O => timeout
  | S n' =>
      if len =? 0 then ret out
      else
        out <- fill_step c sz out ;;
        out <- fill_step c sz out ;;
        out <- fill_step c sz out ;;
        out <- fill_step c sz out ;;
        out <- fill_step c sz out ;;
        out <- fill_step c sz out ;;
        out <- fill_step c sz out ;;
        out <- fill_step c sz out ;;
        memset_loop n' c sz (wrap (len - 8)) out
  end.

Definition byte_memset (out len : Z) : M Z :=
  let sz := 8 in
  let from := out - 1 in
  c <- deref from ;;
  let rem := len mod sz in
  assert (sz <=? len) ;;
  MEMSET out c sz ;;
  let len := len / sz in
  let out := out + rem in
  let by8 := len mod 8 in
  let len := wrap (len - by8) in
  out <- memset_switch c sz by8 out ;;
  memset_loop fuel c sz len out.

(** *** Pattern doubling *)

Record locals := mkLocals {
  l_out : Z;
  l_from : Z;
  l_dist : Z;
  l_len : Z
}.

(** [dist < len && dist < sz] *)
Definition loop_cond (l : locals) : bool :=
  (l_dist l <? l_len l) && (l_dist l <? 8).

(** [out += dist; len -= dist; dist += dist;] *)
Definition loop_update (l : locals) : locals :=
  {| l_out := l_out l + l_dist l;
     l_from := l_from l;
     l_dist := wrap (l_dist l + l_dist l);
     l_len := wrap (l_len l - l_dist l) |}.

Fixpoint chunk_memset_loop (n : nat) (l : locals) : M Z :=
  match n with
  | O => timeout
  | S n' =>
      if loop_cond l then
        copy_8_bytes (l_out l) (l_from l) ;;
        let l := loop_update l in
        if l_len l <? 8
        then set_bytes (l_out l) (l_from l) (l_dist l) (l_len l)
        else chunk_memset_loop n' l
      else chunk_memcpy (l_out l) (l_from l) (l_len l)
  end.

Definition chunk_memset (out from dist len : Z) : M Z :=
  if len <=? dist then chunk_memcpy out from len
  else
    assert (8 <=? len) ;;
    chunk_memset_loop fuel (mkLocals out from dist len).

(** *** Dispatch *)

Definition chunk_copy (out from dist len : Z) : M Z :=
  if len <? 8 then
    if 0 <? dist then set_bytes out from dist len
    else copy_bytes out from len
  else if dist =? 1 then byte_memset out len
  else if 0 <? dist then chunk_memset out from dist len
  else chunk_memcpy out from len.

Definition fast_copy (out from len : Z) : M Z :=
  if len <? 8 then copy_bytes out from len
  else if SSE2 cfg then
    if len <? 16 then chunk_memcpy out from len
    else chunk_memcpy_16 out from len
  else chunk_memcpy out from len.

(** [sizeof(__m128i)] with SSE2, [sizeof(uint64_t)] without. *)
Definition chunk_width : Z := if SSE2 cfg then 16 else 8.

(** [for (; len; --len) { *out++ = *from++; }] *)
Fixpoint copy_for (n : nat) (out from len : Z) : M Z :=
  match n with
  | O => timeout
  | S n' =>
      if len =? 0 then ret out
      else
        b <- deref from ;;
        assign out b ;;
        copy_for n' (out + 1) (from + 1) (wrap (len - 1))
  end.

Definition safe_copy (out from len : Z) : M Z :=
  let sz := chunk_width in
  if Z.abs (from - out) <? sz then copy_for fuel out from len
  else fast_copy out from len.

End Routines.

(** ** Concrete inputs *)

(** The bytes A, B, C, D at 96..99, zero elsewhere. *)
Definition mem0 : memory := fun a =>
  match a with
  | 96 => x41 | 97 => x42 | 98 => x43 | 99 => x44
  | _ => x00
  end.

Definition st0 : state := mkState mem0 [].

(** A memory full of [0x7A]. *)
Definition st7a : state := mkState (fun _ => x7a) [].

(** Three builds: with assertions, without, and the portable one (no
    unaligned access, no SSE2). *)
Definition debug_cfg := mkConfig true true false.
Definition release_cfg := mkConfig true true true.
Definition portable_cfg := mkConfig false false true.

(** ** Specification vocabulary *)

(** The call returned normally, with a result and a final state that
    satisfy [Q]. *)
Definition returns {A} (o : outcome A) (Q : A -> state -> Prop) : Prop :=
  match o with
  | Done a s' => Q a s'
  | Abort _ | Timeout => False
  end.

(** The call stopped, by a return or by a failed assertion, in a state that
    satisfies [Q]. *)
Definition halts {A} (o : outcome A) (Q : state -> Prop) : Prop :=
  match o with
  | Done _ s' | Abort s' => Q s'
  | Timeout => False
  end.

(** Between [s] and [s'] every store went to an address in [lo, hi), and the
    bytes outside that interval are the same. *)
Definition within (lo hi : Z) (s s' : state) : Prop :=
  (exists w, wlog s' = w ++ wlog s /\ Forall (fun a => lo <= a < hi) w) /\
  (forall a, ~ (lo <= a < hi) -> mem s' a = mem s a).

(** [len] bytes at [out] repeat the [dist] bytes that preceded [out]. *)
Definition cyclic (out dist len : Z) (s s' : state) : Prop :=
  forall i, 0 <= i < len -> mem s' (out + i) = mem s (out - dist + i mod dist).

(** [len] bytes at [out] are the [len] bytes that were at [from]. *)
Definition copied (out from len : Z) (s s' : state) : Prop :=
  forall i, 0 <= i < len -> mem s' (out + i) = mem s (from + i).

(** The ranges [from, from+len) and [out, out+len) do not meet. *)
Definition disjoint (out from len : Z) : Prop :=
  from + len <= out \/ out + len <= from.

(** Values of type [unsigned]. *)
Definition is_unsigned (z : Z) : Prop := 0 <= z < 2 ^ 32.

(** Fuel that lets every loop of a call on [len] bytes run to its end. *)
Definition enough (fuel : nat) (len : Z) : Prop := len < Z.of_nat fuel.

(** The spec's element-by-element, left-to-right copy. *)
Fixpoint bytewise_copy (n : nat) (out from : Z) (m : memory) : memory :=
  match n with
  | O => m
  | S n' => bytewise_copy n' (out + 1) (from + 1)
              (fun a => if a =? out then m from else m a)
  end.

(** The doubling loop of [chunk_memset] as the comment above it reads it:
    every call reads from [dist] bytes behind the write cursor, and [from]
    is not consulted. *)
Fixpoint chunk_memset_loop_behind (cfg : config) (fuel n : nat) (l : locals)
  : M Z :=
  match n with
  | O => timeout
  | S n' =>
      if loop_cond l then
        copy_8_bytes (l_out l) (l_out l - l_dist l) ;;
        let l := loop_update l in
        if l_len l <? 8
        then set_bytes cfg fuel (l_out l) (l_out l - l_dist l) (l_dist l) (l_len l)
        else chunk_memset_loop_behind cfg fuel n' l
      else chunk_memcpy cfg fuel (l_out l) (l_out l - l_dist l) (l_len l)
  end.

(** The locals at the head of the doubling loop, after any number of
    iterations. *)
Inductive loop_reaches : locals -> locals -> Prop :=
| reaches_here l : loop_reaches l l
| reaches_next l l' :
    loop_cond l = true -> loop_reaches (loop_update l) l' -> loop_reaches l l'.

(** [ahead m0 out delta lim p s]: [s] holds the source bytes of [m0], found
    [delta] further on, in [out, p), and is [m0] below [out] and from
    [max p lim] on. *)
Definition ahead (m0 : memory) (out delta lim p : Z) (s : state) : Prop :=
  (forall a, out <= a < p -> mem s a = m0 (a + delta)) /\
  (forall a, a < out \/ (p <= a /\ lim <= a) -> mem s a = m0 a).

(** What a call that moves [n] bytes owes its caller. *)
Definition moves (n out from : Z) (s : state) (o : outcome Z) : Prop :=
  returns o (fun r s' => r = out + n /\ copied out from n s s' /\
                         within out (out + n) s s').

(** The iterations the doubling loop still has to run for a given [dist]. *)
Definition rounds (dist : Z) : nat :=
  if 8 <=? dist then 0 else if 4 <=? dist then 1
  else if 2 <=? dist then 2 else 3.

(** * Properties *)

(** ** Blocks of addresses and of bytes *)

Lemma addrs_length p n : length (addrs p n) = n.
Proof.
  revert p; induction n as [|n IH]; intros p; simpl; [reflexivity|].
  now rewrite IH.
Qed.

Lemma addrs_In p n a : In a (addrs p n) <-> p <= a < p + Z.of_nat n.
Proof.
  revert p; induction n as [|n IH]; intros p.
  - simpl. lia.
  - cbn [addrs In]. rewrite IH. lia.
Qed.

Lemma nth_addrs n : forall p i d,
  (i < n)%nat -> nth i (addrs p n) d = p + Z.of_nat i.
Proof.
  induction n as [|n IH]; intros p i d Hi; [lia|].
  destruct i as [|i]; cbn [addrs nth].
  - lia.
  - rewrite IH by lia. lia.
Qed.

Lemma load_bytes_length m p n : length (load_bytes m p n) = n.
Proof. unfold load_bytes. now rewrite length_map, addrs_length. Qed.

Lemma nth_load_bytes m p n i d :
  (i < n)%nat -> nth i (load_bytes m p n) d = m (p + Z.of_nat i).
Proof.
  intros Hi. unfold load_bytes.
  rewrite (nth_indep _ d (m 0)) by (now rewrite length_map, addrs_length).
  rewrite (map_nth m (addrs p n) 0 i).
  now rewrite nth_addrs.
Qed.

Lemma in_block_true p n a : p <= a < p + Z.of_nat n -> in_block p n a = true.
Proof. unfold in_block. intros H. apply andb_true_intro. split; [apply Z.leb_le | apply Z.ltb_lt]; lia. Qed.

Lemma in_block_false p n a : a < p \/ p + Z.of_nat n <= a -> in_block p n a = false.
Proof.
  unfold in_block. intros H. apply andb_false_iff.
  destruct H; [left; apply Z.leb_gt | right; apply Z.ltb_ge]; lia.
Qed.

Lemma store_bytes_out m p l a :
  a < p \/ p + Z.of_nat (length l) <= a -> store_bytes m p l a = m a.
Proof. intros H. unfold store_bytes. now rewrite in_block_false. Qed.

Lemma store_load_in m m' out from n a :
  out <= a < out + Z.of_nat n ->
  store_bytes m out (load_bytes m' from n) a = m' (from + (a - out)).
Proof.
  intros H. unfold store_bytes. rewrite load_bytes_length, in_block_true by assumption.
  rewrite nth_load_bytes by lia. f_equal. lia.
Qed.

Lemma store_load_out m m' out from n a :
  a < out \/ out + Z.of_nat n <= a ->
  store_bytes m out (load_bytes m' from n) a = m a.
Proof. intros H. apply store_bytes_out. now rewrite load_bytes_length. Qed.

Lemma store_repeat_in m out c n a :
  out <= a < out + Z.of_nat n -> store_bytes m out (repeat c n) a = c.
Proof.
  intros H. unfold store_bytes. rewrite repeat_length, in_block_true by assumption.
  apply nth_repeat_lt. lia.
Qed.

Lemma store_repeat_out m out c n a :
  a < out \/ out + Z.of_nat n <= a -> store_bytes m out (repeat c n) a = m a.
Proof. intros H. apply store_bytes_out. now rewrite repeat_length. Qed.

(** ** Footprints *)

Lemma within_refl lo hi s : within lo hi s s.
Proof. split; [exists []; split; [reflexivity | constructor] | reflexivity]. Qed.

Lemma within_trans lo hi s1 s2 s3 :
  within lo hi s1 s2 -> within lo hi s2 s3 -> within lo hi s1 s3.
Proof.
  intros [[w1 [E1 F1]] M1] [[w2 [E2 F2]] M2]. split.
  - exists (w2 ++ w1). split.
    + now rewrite E2, E1, app_assoc.
    + apply Forall_app. now split.
  - intros a Ha. now rewrite M2, M1.
Qed.

Lemma within_mono lo hi lo' hi' s s' :
  lo' <= lo -> hi <= hi' -> within lo hi s s' -> within lo' hi' s s'.
Proof.
  intros Hlo Hhi [[w [E F]] Hm]. split.
  - exists w. split; [assumption|].
    eapply Forall_impl; [|exact F]. cbv beta. intros; lia.
  - intros a Ha. apply Hm. lia.
Qed.

Lemma within_stored lo hi p l s :
  lo <= p -> p + Z.of_nat (length l) <= hi -> within lo hi s (stored p l s).
Proof.
  intros Hlo Hhi. split.
  - exists (rev (addrs p (length l))). split; [reflexivity|].
    apply Forall_forall. intros a Ha. apply in_rev in Ha.
    apply addrs_In in Ha. lia.
  - intros a Ha. cbn [stored mem]. apply store_bytes_out. lia.
Qed.

Lemma within_stored_step lo hi p l s s1 :
  within lo hi s s1 ->
  lo <= p -> p + Z.of_nat (length l) <= hi ->
  within lo hi s (stored p l s1).
Proof.
  intros H Hlo Hhi. eapply within_trans; [exact H|]. now apply within_stored.
Qed.

(** ** Reasoning about outcomes *)

Lemma returns_bind {A B} (c : M A) (k : A -> M B) s Q :
  returns (c s) (fun a s' => returns (k a s') Q) -> returns (bind c k s) Q.
Proof. unfold bind. destruct (c s); simpl; auto. Qed.

Lemma returns_weaken {A} (o : outcome A) (P Q : A -> state -> Prop) :
  (forall a s', P a s' -> Q a s') -> returns o P -> returns o Q.
Proof. destruct o; simpl; auto. Qed.

Lemma returns_and {A} (o : outcome A) (P Q : A -> state -> Prop) :
  returns o P -> returns o Q -> returns o (fun a s' => P a s' /\ Q a s').
Proof. destruct o; simpl; auto. Qed.

Lemma returns_halts {A} (o : outcome A) (Q : state -> Prop) :
  returns o (fun _ s' => Q s') -> halts o Q.
Proof. destruct o; simpl; auto; contradiction. Qed.

Lemma halts_weaken {A} (o : outcome A) (P Q : state -> Prop) :
  (forall s', P s' -> Q s') -> halts o P -> halts o Q.
Proof. destruct o; simpl; auto. Qed.

Lemma assert_true cfg b s : b = true -> assert cfg b s = Done tt s.
Proof. intros ->. reflexivity. Qed.

Lemma assert_ndebug cfg b s : NDEBUG cfg = true -> assert cfg b s = Done tt s.
Proof. intros H. unfold assert. rewrite H. now rewrite orb_true_r. Qed.

Lemma assert_fails cfg s : NDEBUG cfg = false -> assert cfg false s = Abort s.
Proof. intros H. unfold assert. now rewrite H. Qed.

Lemma wrap_small z : is_unsigned z -> wrap z = z.
Proof. unfold is_unsigned, wrap. intros H. now apply Z.mod_small. Qed.

(** ** The bulk copier: one invariant rule for both chunk widths *)

Section ChunkedRule.
Variable cfg : config.
Variable fuel : nat.
Variable copy_chunk : Z -> Z -> M Z.
Variable sz : Z.
Hypothesis sz_pos : 0 < sz.
Hypothesis copy_chunk_eq : forall out from s,
  copy_chunk out from s =
  Done (out + sz) (stored out (load_bytes (mem s) from (Z.to_nat sz)) s).

Variables delta lo hi : Z.
Variable I : Z -> state -> Prop.
Hypothesis I_down : forall p p' s, p' <= p -> I p s -> I p' s.
Hypothesis I_step : forall q s,
  I q s -> lo <= q -> q + sz <= hi ->
  I (q + sz) (stored q (load_bytes (mem s) (q + delta) (Z.to_nat sz)) s).

Lemma steps_then_returns {B} (K : Z * Z -> M B) (Q : B -> state -> Prop) :
  forall k q s,
    I q s -> lo <= q -> q + sz * Z.of_nat k <= hi ->
    (forall s', I (q + sz * Z.of_nat k) s' ->
       returns (K (q + sz * Z.of_nat k, q + sz * Z.of_nat k + delta) s') Q) ->
    returns (steps_then copy_chunk sz k (q, q + delta) K s) Q.
Proof.
  induction k as [|k IH]; intros q s HI Hlo Hhi HK.
  - cbn [steps_then]. replace (q + sz * Z.of_nat 0) with q in HK by lia. now apply HK.
  - cbn [steps_then]. apply returns_bind. unfold step at 1. cbn [fst snd].
    apply returns_bind. rewrite copy_chunk_eq. cbn [returns ret].
    replace (q + delta + sz) with (q + sz + delta) by lia.
    apply IH.
    + apply I_step; [assumption | assumption | nia].
    + lia.
    + nia.
    + intros s' Hs'.
      replace (q + sz + sz * Z.of_nat k) with (q + sz * Z.of_nat (S k)) by lia.
      apply HK.
      replace (q + sz * Z.of_nat (S k)) with (q + sz + sz * Z.of_nat k) by lia.
      assumption.
Qed.

Lemma memcpy_switch_steps by8 acc s :
  0 <= by8 < 8 ->
  memcpy_switch copy_chunk sz by8 acc s =
  steps_then copy_chunk sz (Z.to_nat by8) acc ret s.
Proof.
  intros H.
  assert (by8 = 0 \/ by8 = 1 \/ by8 = 2 \/ by8 = 3 \/
          by8 = 4 \/ by8 = 5 \/ by8 = 6 \/ by8 = 7) as C by lia.
  repeat (destruct C as [-> | C]); try subst by8; reflexivity.
Qed.

Lemma memcpy_loop_returns :
  forall n j q s,
    (j < n)%nat -> 8 * Z.of_nat j < 2 ^ 32 ->
    I q s -> lo <= q -> q + sz * (8 * Z.of_nat j) = hi ->
    returns (memcpy_loop copy_chunk sz n (8 * Z.of_nat j) (q, q + delta) s)
            (fun acc s' => fst acc = hi /\ I hi s').
Proof.
  induction n as [|n IH]; intros j q s Hj Hu HI Hlo Hq; [lia|].
  cbn [memcpy_loop].
  destruct (8 * Z.of_nat j =? 0) eqn:E.
  - apply Z.eqb_eq in E. cbn [ret returns fst].
    replace q with hi in * by lia. auto.
  - apply Z.eqb_neq in E.
    destruct j as [|j]; [lia|].
    change (returns (steps_then copy_chunk sz 8 (q, q + delta)
              (fun acc => memcpy_loop copy_chunk sz n
                            (wrap (8 * Z.of_nat (S j) - 8)) acc) s)
              (fun acc s' => fst acc = hi /\ I hi s')).
    apply steps_then_returns; [assumption | assumption | nia |].
    intros s' Hs'.
    replace (wrap (8 * Z.of_nat (S j) - 8)) with (8 * Z.of_nat j)
      by (rewrite wrap_small; [lia | unfold is_unsigned; lia]).
    apply IH; [lia | lia | assumption | nia | nia].
Qed.

Lemma chunk_memcpy_gen_returns out from len s :
  delta = from - out -> lo = out -> hi = out + len ->
  is_unsigned len -> sz <= len -> enough fuel len ->
  I out s ->
  returns (chunk_memcpy_gen cfg fuel copy_chunk sz out from len s)
          (fun r s' => r = out + len /\ I hi s').
Proof.
  intros Hd Hl Hh Hu Hlen Hfuel HI.
  unfold chunk_memcpy_gen.
  apply returns_bind. rewrite assert_true by (apply Z.leb_le; assumption).
  cbn [returns]. apply returns_bind. rewrite copy_chunk_eq. cbn [returns].
  pose proof (Z.div_mod len sz ltac:(lia)) as Hdm.
  pose proof (Z.mod_pos_bound len sz sz_pos) as Hrem.
  assert (1 <= len / sz) as Hq by (apply Z.div_le_lower_bound; lia).
  assert (len / sz <= len) as Hq' by (apply Z.div_le_upper_bound; nia).
  pose proof (Z.div_mod (len / sz) 8 ltac:(lia)) as Hdm8.
  pose proof (Z.mod_pos_bound (len / sz) 8 ltac:(lia)) as Hby8.
  assert (0 <= len / sz / 8) as Hj by (apply Z.div_pos; lia).
  unfold is_unsigned in Hu.
  replace (wrap (len / sz - (len / sz) mod 8))
    with (8 * Z.of_nat (Z.to_nat (len / sz / 8)))
    by (rewrite wrap_small; [lia | unfold is_unsigned; lia]).
  apply returns_bind. rewrite memcpy_switch_steps by assumption.
  replace from with (out + delta) by lia.
  replace (out + delta + len mod sz) with (out + len mod sz + delta) by lia.
  apply steps_then_returns.
  - apply I_down with (out + sz); [lia|].
    apply I_step; [assumption | lia | lia].
  - lia.
  - rewrite Z2Nat.id by lia. nia.
  - intros s' Hs'. cbn [ret returns]. apply returns_bind.
    eapply returns_weaken; [|apply memcpy_loop_returns].
    + cbv beta. intros acc s'' [Ha Hs'']. cbn [ret returns].
      split; [lia | assumption].
    + unfold enough in Hfuel. lia.
    + lia.
    + assumption.
    + lia.
    + rewrite !Z2Nat.id by lia. nia.
Qed.
End ChunkedRule.

(** ** Copying towards a target memory

    A forward copy is correct when every block it moves reads bytes that
    already have their final value: either they lie behind the block, or
    they lie beyond the whole destination.  [toward T hi p s] says that
    [s] has reached the target [T] below [p] and from [hi] on. *)

Definition toward (T : memory) (hi p : Z) (s : state) : Prop :=
  (forall a, a < p -> mem s a = T a) /\ (forall a, hi <= a -> mem s a = T a).

Lemma toward_down T hi p p' s : p' <= p -> toward T hi p s -> toward T hi p' s.
Proof. intros Hp [H1 H2]. split; [intros a Ha; apply H1; lia | assumption]. Qed.

Lemma toward_all T hi s : toward T hi hi s -> forall a, mem s a = T a.
Proof.
  intros [H1 H2] a. destruct (Z_lt_le_dec a hi); [now apply H1 | now apply H2].
Qed.

Lemma toward_blit T hi delta q w s :
  toward T hi q s ->
  q + Z.of_nat w <= hi ->
  delta + Z.of_nat w <= 0 \/ hi <= q + delta ->
  (forall a, q <= a < q + Z.of_nat w -> T a = T (a + delta)) ->
  toward T hi (q + Z.of_nat w) (stored q (load_bytes (mem s) (q + delta) w) s).
Proof.
  intros [Hlo Hhi] Hq Hsafe HT. split; intros a Ha; cbn [stored mem].
  - destruct (Z_lt_le_dec a q) as [Hl | Hl].
    + rewrite store_load_out by lia. now apply Hlo.
    + rewrite store_load_in by lia.
      rewrite HT by lia.
      replace (q + delta + (a - q)) with (a + delta) by lia.
      destruct Hsafe; [apply Hlo | apply Hhi]; lia.
  - rewrite store_load_out by lia. now apply Hhi.
Qed.

(** The memory in which [len] bytes at [out] repeat the [dist] bytes before
    them. *)
Definition pattern_mem (m : memory) (out dist len : Z) : memory :=
  fun a => if (out <=? a) && (a <? out + len)
           then m (out - dist + (a - out) mod dist)
           else m a.

(** The memory in which [len] bytes at [out] are those found at [from]. *)
Definition copy_mem (m : memory) (out from len : Z) : memory :=
  fun a => if (out <=? a) && (a <? out + len)
           then m (from + (a - out))
           else m a.

Lemma pattern_mem_in m out dist len a :
  out <= a < out + len ->
  pattern_mem m out dist len a = m (out - dist + (a - out) mod dist).
Proof.
  intros H. unfold pattern_mem.
  replace ((out <=? a) && (a <? out + len)) with true; [reflexivity|].
  symmetry. apply andb_true_intro. split; [apply Z.leb_le | apply Z.ltb_lt]; lia.
Qed.

Lemma pattern_mem_out m out dist len a :
  a < out \/ out + len <= a -> pattern_mem m out dist len a = m a.
Proof.
  intros H. unfold pattern_mem.
  replace ((out <=? a) && (a <? out + len)) with false; [reflexivity|].
  symmetry. apply andb_false_iff.
  destruct H; [left; apply Z.leb_gt | right; apply Z.ltb_ge]; lia.
Qed.

Lemma copy_mem_in m out from len a :
  out <= a < out + len -> copy_mem m out from len a = m (from + (a - out)).
Proof.
  intros H. unfold copy_mem.
  replace ((out <=? a) && (a <? out + len)) with true; [reflexivity|].
  symmetry. apply andb_true_intro. split; [apply Z.leb_le | apply Z.ltb_lt]; lia.
Qed.

Lemma copy_mem_out m out from len a :
  a < out \/ out + len <= a -> copy_mem m out from len a = m a.
Proof.
  intros H. unfold copy_mem.
  replace ((out <=? a) && (a <? out + len)) with false; [reflexivity|].
  symmetry. apply andb_false_iff.
  destruct H; [left; apply Z.leb_gt | right; apply Z.ltb_ge]; lia.
Qed.

Lemma pattern_mem_shift m out dist len a :
  0 < dist -> out <= a < out + len ->
  pattern_mem m out dist len a = pattern_mem m out dist len (a + - dist).
Proof.
  intros Hd Ha. rewrite pattern_mem_in by assumption.
  destruct (Z_lt_le_dec (a - dist) out) as [Hl | Hl].
  - rewrite pattern_mem_out by lia.
    rewrite Z.mod_small by lia. f_equal. lia.
  - rewrite pattern_mem_in by lia. f_equal. f_equal.
    replace (a + - dist - out) with (a - out + (-1) * dist) by lia.
    now rewrite Z.mod_add by lia.
Qed.

Lemma copy_mem_shift m out from len a :
  out + len <= from -> out <= a < out + len ->
  copy_mem m out from len a = copy_mem m out from len (a + (from - out)).
Proof.
  intros Hd Ha. rewrite copy_mem_in by assumption.
  rewrite copy_mem_out by lia. f_equal. lia.
Qed.

Lemma toward_pattern_start s out dist len :
  toward (pattern_mem (mem s) out dist len) (out + len) out s.
Proof. split; intros a Ha; now rewrite pattern_mem_out by lia. Qed.

Lemma toward_copy_start s out from len :
  toward (copy_mem (mem s) out from len) (out + len) out s.
Proof. split; intros a Ha; now rewrite copy_mem_out by lia. Qed.

Lemma pattern_mem_cyclic s s' out dist len :
  (forall a, mem s' a = pattern_mem (mem s) out dist len a) ->
  cyclic out dist len s s'.
Proof.
  intros H i Hi. rewrite H, pattern_mem_in by lia. f_equal. f_equal. f_equal. lia.
Qed.

Lemma copy_mem_copied s s' out from len :
  (forall a, mem s' a = copy_mem (mem s) out from len a) ->
  copied out from len s s'.
Proof.
  intros H i Hi. rewrite H, copy_mem_in by lia. f_equal. lia.
Qed.

(** With the pattern at least as long as the run, repeating it is copying
    it. *)
Lemma cyclic_copied out dist len s s' :
  len <= dist -> cyclic out dist len s s' -> copied out (out - dist) len s s'.
Proof.
  intros Hd H i Hi. rewrite H by assumption. now rewrite Z.mod_small by lia.
Qed.

(** ** [chunk_memcpy] and [chunk_memcpy_16] *)

Section ChunkedFacts.
Variable cfg : config.
Variable fuel : nat.
Variable copy_chunk : Z -> Z -> M Z.
Variable sz : Z.
Hypothesis sz_pos : 0 < sz.
Hypothesis copy_chunk_eq : forall out from s,
  copy_chunk out from s =
  Done (out + sz) (stored out (load_bytes (mem s) from (Z.to_nat sz)) s).

Lemma chunk_memcpy_gen_within out from len s :
  is_unsigned len -> sz <= len -> enough fuel len ->
  returns (chunk_memcpy_gen cfg fuel copy_chunk sz out from len s)
          (fun r s' => r = out + len /\ within out (out + len) s s').
Proof.
  intros Hu Hlen Hf.
  apply (chunk_memcpy_gen_returns cfg fuel copy_chunk sz sz_pos copy_chunk_eq
           (from - out) out (out + len)
           (fun _ s' => within out (out + len) s s'));
    try reflexivity; try assumption.
  - intros; assumption.
  - intros q s1 H1 Hlo Hhi. apply within_stored_step; [assumption | lia |].
    rewrite load_bytes_length. lia.
  - apply within_refl.
Qed.

Lemma chunk_memcpy_gen_target T out from len s :
  is_unsigned len -> sz <= len -> enough fuel len ->
  from - out + sz <= 0 \/ out + len <= from ->
  (forall a, out <= a < out + len -> T a = T (a + (from - out))) ->
  toward T (out + len) out s ->
  returns (chunk_memcpy_gen cfg fuel copy_chunk sz out from len s)
          (fun r s' => r = out + len /\ forall a, mem s' a = T a).
Proof.
  intros Hu Hlen Hf Hsafe HT H0.
  eapply returns_weaken;
    [| apply (chunk_memcpy_gen_returns cfg fuel copy_chunk sz sz_pos copy_chunk_eq
                (from - out) out (out + len) (toward T (out + len)));
       try reflexivity; try assumption ].
  - cbv beta. intros r s' [Hr Hs']. split; [assumption | now apply (toward_all T (out + len))].
  - intros p p' s1. apply toward_down.
  - intros q s1 H1 Hlo Hhi.
    replace (q + sz) with (q + Z.of_nat (Z.to_nat sz)) by lia.
    apply toward_blit; [assumption | lia | lia |].
    intros a Ha. apply HT. lia.
Qed.

Lemma chunk_memcpy_gen_cyclic out dist len s :
  is_unsigned len -> sz <= len -> enough fuel len -> sz <= dist ->
  returns (chunk_memcpy_gen cfg fuel copy_chunk sz out (out - dist) len s)
          (fun r s' => r = out + len /\ cyclic out dist len s s').
Proof.
  intros Hu Hlen Hf Hd.
  eapply returns_weaken;
    [| apply (chunk_memcpy_gen_target (pattern_mem (mem s) out dist len));
       try assumption ].
  - cbv beta. intros r s' [Hr Hs']. split; [assumption|].
    now apply pattern_mem_cyclic.
  - left. lia.
  - intros a Ha. replace (out - dist - out) with (- dist) by lia.
    apply pattern_mem_shift; lia.
  - apply toward_pattern_start.
Qed.

Lemma chunk_memcpy_gen_copied out from len s :
  is_unsigned len -> sz <= len -> enough fuel len ->
  disjoint out from len ->
  returns (chunk_memcpy_gen cfg fuel copy_chunk sz out from len s)
          (fun r s' => r = out + len /\ copied out from len s s').
Proof.
  intros Hu Hlen Hf [Hd | Hd].
  - replace from with (out - (out - from)) by lia.
    eapply returns_weaken; [| apply chunk_memcpy_gen_cyclic; try assumption; lia].
    cbv beta. intros r s' [Hr Hs']. split; [assumption|].
    apply cyclic_copied; [lia | assumption].
  - eapply returns_weaken;
      [| apply (chunk_memcpy_gen_target (copy_mem (mem s) out from len));
         try assumption ].
    + cbv beta. intros r s' [Hr Hs']. split; [assumption|].
      now apply copy_mem_copied.
    + right. assumption.
    + intros a Ha. now apply copy_mem_shift.
    + apply toward_copy_start.
Qed.
End ChunkedFacts.

Lemma copy_8_bytes_eq out from s :
  copy_8_bytes out from s =
  Done (out + 8) (stored out (load_bytes (mem s) from (Z.to_nat 8)) s).
Proof. reflexivity. Qed.

Lemma copy_16_bytes_eq out from s :
  copy_16_bytes out from s =
  Done (out + 16) (stored out (load_bytes (mem s) from (Z.to_nat 16)) s).
Proof. reflexivity. Qed.

Section BulkCopy.
Variable cfg : config.
Variable fuel : nat.

Lemma chunk_memcpy_within out from len s :
  is_unsigned len -> 8 <= len -> enough fuel len ->
  returns (chunk_memcpy cfg fuel out from len s)
          (fun r s' => r = out + len /\ within out (out + len) s s').
Proof.
  apply chunk_memcpy_gen_within; [lia | exact copy_8_bytes_eq].
Qed.

Lemma chunk_memcpy_16_within out from len s :
  is_unsigned len -> 16 <= len -> enough fuel len ->
  returns (chunk_memcpy_16 cfg fuel out from len s)
          (fun r s' => r = out + len /\ within out (out + len) s s').
Proof.
  apply chunk_memcpy_gen_within; [lia | exact copy_16_bytes_eq].
Qed.

Lemma chunk_memcpy_cyclic out dist len s :
  is_unsigned len -> 8 <= len -> enough fuel len -> 8 <= dist ->
  returns (chunk_memcpy cfg fuel out (out - dist) len s)
          (fun r s' => r = out + len /\ cyclic out dist len s s').
Proof.
  apply chunk_memcpy_gen_cyclic; [lia | exact copy_8_bytes_eq].
Qed.

Lemma chunk_memcpy_copied out from len s :
  is_unsigned len -> 8 <= len -> enough fuel len -> disjoint out from len ->
  returns (chunk_memcpy cfg fuel out from len s)
          (fun r s' => r = out + len /\ copied out from len s s').
Proof.
  apply chunk_memcpy_gen_copied; [lia | exact copy_8_bytes_eq].
Qed.
End BulkCopy.

(** ** The byte loops *)

Lemma copy_for_while n : forall out from len s,
  copy_for n out from len s = copy_while n out from len s.
Proof.
  induction n as [|n IH]; intros out from len s; [reflexivity|].
  cbn [copy_for copy_while]. destruct (len =? 0); [reflexivity|].
  unfold bind. cbn [deref assign MEMCPY_store]. apply IH.
Qed.

Section ByteLoopRule.
Variables delta lo hi : Z.
Variable I : Z -> state -> Prop.
Hypothesis I_step : forall q s,
  I q s -> lo <= q -> q + 1 <= hi ->
  I (q + 1) (stored q (load_bytes (mem s) (q + delta) 1) s).

Lemma copy_while_returns : forall n q len s,
  enough n len -> is_unsigned len ->
  I q s -> lo <= q -> q + len = hi ->
  returns (copy_while n q (q + delta) len s) (fun r s' => r = hi /\ I hi s').
Proof.
  unfold enough.
  induction n as [|n IH]; intros q len s Hn Hu HI Hlo Hq; [unfold is_unsigned in Hu; lia|].
  cbn [copy_while]. destruct (len =? 0) eqn:E.
  - apply Z.eqb_eq in E. cbn [ret returns].
    replace q with hi in * by lia. auto.
  - apply Z.eqb_neq in E. unfold is_unsigned in Hu.
    unfold bind. cbn [deref assign MEMCPY_store].
    replace (wrap (len - 1)) with (len - 1)
      by (rewrite wrap_small; [lia | unfold is_unsigned; lia]).
    replace (q + delta + 1) with (q + 1 + delta) by lia.
    apply IH; [lia | unfold is_unsigned; lia | | lia | lia].
    apply (I_step q s); [assumption | lia | lia].
Qed.
End ByteLoopRule.

Lemma copy_while_within n out from len s :
  enough n len -> is_unsigned len ->
  returns (copy_while n out from len s)
          (fun r s' => r = out + len /\ within out (out + len) s s').
Proof.
  intros Hn Hu. replace from with (out + (from - out)) by lia.
  apply (copy_while_returns (from - out) out (out + len)
           (fun _ s' => within out (out + len) s s'));
    try assumption; try reflexivity; try lia.
  - intros q s1 H1 Hlo Hhi. apply within_stored_step; [assumption | lia |].
    rewrite load_bytes_length. lia.
  - apply within_refl.
Qed.

Lemma copy_while_target T n out from len s :
  enough n len -> is_unsigned len ->
  from - out + 1 <= 0 \/ out + len <= from ->
  (forall a, out <= a < out + len -> T a = T (a + (from - out))) ->
  toward T (out + len) out s ->
  returns (copy_while n out from len s)
          (fun r s' => r = out + len /\ forall a, mem s' a = T a).
Proof.
  intros Hn Hu Hsafe HT H0. replace from with (out + (from - out)) at 1 by lia.
  eapply returns_weaken;
    [| apply (copy_while_returns (from - out) out (out + len)
                (toward T (out + len))); try assumption; try reflexivity; try lia ].
  - cbv beta. intros r s' [Hr Hs']. split; [assumption|].
    now apply (toward_all T (out + len)).
  - intros q s1 H1 Hlo Hhi.
    change (q + 1) with (q + Z.of_nat 1).
    apply toward_blit; [assumption | lia | lia |].
    intros a Ha. apply HT. lia.
Qed.

Lemma copy_while_cyclic n out dist len s :
  enough n len -> is_unsigned len -> 1 <= dist ->
  returns (copy_while n out (out - dist) len s)
          (fun r s' => r = out + len /\ cyclic out dist len s s').
Proof.
  intros Hn Hu Hd.
  eapply returns_weaken;
    [| apply (copy_while_target (pattern_mem (mem s) out dist len));
       try assumption ].
  - cbv beta. intros r s' [Hr Hs']. split; [assumption|].
    now apply pattern_mem_cyclic.
  - left. lia.
  - intros a Ha. replace (out - dist - out) with (- dist) by lia.
    apply pattern_mem_shift; lia.
  - apply toward_pattern_start.
Qed.

Lemma copy_while_copied n out from len s :
  enough n len -> is_unsigned len -> disjoint out from len ->
  returns (copy_while n out from len s)
          (fun r s' => r = out + len /\ copied out from len s s').
Proof.
  intros Hn Hu Hd.
  eapply returns_weaken;
    [| apply (copy_while_target (copy_mem (mem s) out from len));
       try assumption ].
  - cbv beta. intros r s' [Hr Hs']. split; [assumption|].
    now apply copy_mem_copied.
  - unfold is_unsigned in Hu. destruct Hd; [|now right].
    destruct (Z_lt_le_dec from out); [left | right]; lia.
  - intros a Ha. rewrite copy_mem_in by lia.
    destruct Hd as [Hd | Hd]; rewrite copy_mem_out by lia; f_equal; lia.
  - apply toward_copy_start.
Qed.

(** ** The short routines

    With [UNALIGNED_OK] the short routines are finite compositions of
    fixed-width copies; they are checked case by case, each case by
    evaluating the composition and reading the resulting memory back. *)

Arguments load_bytes : simpl never.
Arguments store_bytes : simpl never.
Arguments stored : simpl never.

Lemma store_one_in m p c a : a = p -> store_bytes m p [c] a = c.
Proof.
  intros ->. unfold store_bytes. rewrite in_block_true by (cbn [length]; lia).
  now rewrite Z.sub_diag.
Qed.

Lemma store_one_out m p c a : a <> p -> store_bytes m p [c] a = m a.
Proof. intros H. apply store_bytes_out. cbn [length]. lia. Qed.

Ltac small_cases x :=
  match goal with
  | H : 0 <= x < 8 |- _ =>
      let C := fresh "C" in
      assert (x = 0 \/ x = 1 \/ x = 2 \/ x = 3 \/
              x = 4 \/ x = 5 \/ x = 6 \/ x = 7) as C by lia;
      clear H;
      repeat (destruct C as [C | C]); subst x
  end.

Ltac index_cases i :=
  let C := fresh "C" in
  assert (i = 0 \/ i = 1 \/ i = 2 \/ i = 3 \/ i = 4 \/ i = 5 \/ i = 6) as C by lia;
  repeat (destruct C as [C | C]); subst i; try lia.

Ltac within_chain :=
  repeat first
    [ apply within_refl
    | apply within_stored_step;
      [ | lia | rewrite ?load_bytes_length, ?repeat_length; cbn [length]; lia ] ].

Ltac mem_chain :=
  unfold stored; cbn [mem];
  repeat first
    [ rewrite store_load_in by lia
    | rewrite store_load_out by lia
    | rewrite store_repeat_in by lia
    | rewrite store_repeat_out by lia
    | rewrite store_one_in by lia
    | rewrite store_one_out by lia ].

Ltac fast_cfg cfg H :=
  destruct cfg as [? ? ?]; cbn [UNALIGNED_OK] in H; subst.

Lemma copy_bytes_within_fast cfg fuel out from len s :
  UNALIGNED_OK cfg = true -> 0 <= len < 8 ->
  returns (copy_bytes cfg fuel out from len s)
          (fun r s' => r = out + len /\ within out (out + len) s s').
Proof.
  intros HU H. fast_cfg cfg HU. unfold copy_bytes.
  small_cases len; cbn; (split; [lia | within_chain]).
Qed.

Lemma copy_bytes_copied_fast cfg fuel out from len s :
  UNALIGNED_OK cfg = true -> 0 <= len < 8 -> disjoint out from len ->
  returns (copy_bytes cfg fuel out from len s)
          (fun r s' => r = out + len /\ copied out from len s s').
Proof.
  intros HU H Hd. fast_cfg cfg HU. unfold copy_bytes, disjoint in *.
  small_cases len; cbn; (split; [lia|]); intros i Hi; index_cases i.
  all: mem_chain; f_equal; lia.
Qed.

Lemma set_bytes_within_fast cfg fuel out from dist len s :
  UNALIGNED_OK cfg = true -> 0 <= len < 8 -> 0 <= dist ->
  returns (set_bytes cfg fuel out from dist len s)
          (fun r s' => (1 <= dist -> r = out + len) /\
                       within out (out + len) s s').
Proof.
  intros HU H Hd.
  destruct (Z_le_gt_dec len dist) as [E | E].
  - unfold set_bytes. rewrite HU. cbn [negb].
    apply returns_bind. rewrite assert_true by (apply Z.ltb_lt; lia).
    cbn [returns].
    replace (len <=? dist) with true by (symmetry; apply Z.leb_le; lia).
    eapply returns_weaken; [| apply copy_bytes_within_fast; assumption].
    cbv beta. intros r s' [Hr Hs']. auto.
  - fast_cfg cfg HU.
    unfold set_bytes, set_bytes_case3, set_bytes_case2, set_bytes_case1,
      copy_bytes.
    assert (0 <= dist < 8) as Hd8 by lia. clear Hd.
    small_cases dist; small_cases len; try lia; cbn.
    all: (split; [lia | within_chain]).
Qed.

Lemma set_bytes_cyclic_fast cfg fuel out dist len s :
  UNALIGNED_OK cfg = true -> 0 <= len < 8 -> 1 <= dist ->
  returns (set_bytes cfg fuel out (out - dist) dist len s)
          (fun r s' => r = out + len /\ cyclic out dist len s s').
Proof.
  intros HU H Hd.
  destruct (Z_le_gt_dec len dist) as [E | E].
  - unfold set_bytes. rewrite HU. cbn [negb].
    apply returns_bind. rewrite assert_true by (apply Z.ltb_lt; lia).
    cbn [returns].
    replace (len <=? dist) with true by (symmetry; apply Z.leb_le; lia).
    eapply returns_weaken;
      [| apply copy_bytes_copied_fast; [assumption | assumption | left; lia]].
    cbv beta. intros r s' [Hr Hs']. split; [assumption|].
    intros i Hi. rewrite Hs' by assumption. now rewrite Z.mod_small by lia.
  - fast_cfg cfg HU.
    unfold set_bytes, set_bytes_case3, set_bytes_case2, set_bytes_case1,
      copy_bytes.
    assert (0 <= dist < 8) as Hd8 by lia.
    small_cases dist; small_cases len; try lia; cbn.
    all: (split; [lia|]); intros i Hi; index_cases i.
    all: mem_chain; cbn; f_equal; lia.
Qed.

(** Both builds of the short routines. *)

Lemma small_unsigned len : 0 <= len < 8 -> is_unsigned len.
Proof. unfold is_unsigned. lia. Qed.

Lemma copy_bytes_slow cfg fuel out from len s :
  UNALIGNED_OK cfg = false -> 0 <= len < 8 ->
  copy_bytes cfg fuel out from len s = copy_while fuel out from len s.
Proof.
  intros HU H. unfold copy_bytes, bind.
  rewrite assert_true by (apply Z.ltb_lt; lia). now rewrite HU.
Qed.

Lemma set_bytes_slow cfg fuel out from dist len s :
  UNALIGNED_OK cfg = false -> 0 <= len < 8 ->
  set_bytes cfg fuel out from dist len s = copy_while fuel out from len s.
Proof.
  intros HU H. unfold set_bytes, bind.
  rewrite assert_true by (apply Z.ltb_lt; lia). now rewrite HU.
Qed.

Lemma copy_bytes_within cfg fuel out from len s :
  0 <= len < 8 -> enough fuel len ->
  returns (copy_bytes cfg fuel out from len s)
          (fun r s' => r = out + len /\ within out (out + len) s s').
Proof.
  intros H Hf. destruct (UNALIGNED_OK cfg) eqn:HU.
  - now apply copy_bytes_within_fast.
  - rewrite copy_bytes_slow by assumption.
    apply copy_while_within; [assumption | now apply small_unsigned].
Qed.

Lemma copy_bytes_copied cfg fuel out from len s :
  0 <= len < 8 -> enough fuel len -> disjoint out from len ->
  returns (copy_bytes cfg fuel out from len s)
          (fun r s' => r = out + len /\ copied out from len s s').
Proof.
  intros H Hf Hd. destruct (UNALIGNED_OK cfg) eqn:HU.
  - now apply copy_bytes_copied_fast.
  - rewrite copy_bytes_slow by assumption.
    apply copy_while_copied; [assumption | now apply small_unsigned | assumption].
Qed.

Lemma set_bytes_within cfg fuel out from dist len s :
  0 <= len < 8 -> 0 <= dist -> enough fuel len ->
  returns (set_bytes cfg fuel out from dist len s)
          (fun r s' => (1 <= dist -> r = out + len) /\
                       within out (out + len) s s').
Proof.
  intros H Hd Hf. destruct (UNALIGNED_OK cfg) eqn:HU.
  - now apply set_bytes_within_fast.
  - rewrite set_bytes_slow by assumption.
    eapply returns_weaken;
      [| apply copy_while_within; [eassumption | now apply small_unsigned]].
    cbv beta. intros r s' [Hr Hs']. auto.
Qed.

Lemma set_bytes_cyclic cfg fuel out dist len s :
  0 <= len < 8 -> 1 <= dist -> enough fuel len ->
  returns (set_bytes cfg fuel out (out - dist) dist len s)
          (fun r s' => r = out + len /\ cyclic out dist len s s').
Proof.
  intros H Hd Hf. destruct (UNALIGNED_OK cfg) eqn:HU.
  - now apply set_bytes_cyclic_fast.
  - rewrite set_bytes_slow by assumption.
    apply copy_while_cyclic; [assumption | now apply small_unsigned | assumption].
Qed.

Lemma set_bytes_copy_bytes cfg fuel out from dist len s :
  len <= dist ->
  set_bytes cfg fuel out from dist len s = copy_bytes cfg fuel out from len s.
Proof.
  intros Hd. unfold set_bytes. unfold bind at 1. unfold assert at 1.
  destruct ((len <? 8) || NDEBUG cfg) eqn:E.
  - destruct (UNALIGNED_OK cfg) eqn:HU; cbn [negb].
    + now replace (len <=? dist) with true by (symmetry; apply Z.leb_le; lia).
    + unfold copy_bytes, bind, assert. now rewrite E, HU.
  - unfold copy_bytes, bind, assert. now rewrite E.
Qed.

(** ** [byte_memset] *)

Section FillRule.
Variable cfg : config.
Variable fuel : nat.
Variable c : byte.
Variables lo hi : Z.
Variable I : Z -> state -> Prop.
Hypothesis I_down : forall p p' s, p' <= p -> I p s -> I p' s.
Hypothesis I_step : forall q s,
  I q s -> lo <= q -> q + 8 <= hi ->
  I (q + 8) (stored q (repeat c (Z.to_nat 8)) s).

Lemma fills_then_eq : forall k q s,
  I q s -> lo <= q -> q + 8 * Z.of_nat k <= hi ->
  exists s', I (q + 8 * Z.of_nat k) s' /\
    forall B (K : Z -> M B),
      fills_then k c 8 q K s = K (q + 8 * Z.of_nat k) s'.
Proof.
  induction k as [|k IH]; intros q s HI Hlo Hhi.
  - exists s. replace (q + 8 * Z.of_nat 0) with q by lia. split; [assumption | reflexivity].
  - destruct (IH (q + 8) (stored q (repeat c (Z.to_nat 8)) s)) as [s' [Hs' HK]].
    + apply I_step; [assumption | assumption | lia].
    + lia.
    + lia.
    + exists s'. replace (q + 8 * Z.of_nat (S k)) with (q + 8 + 8 * Z.of_nat k) by lia.
      split; [assumption|]. intros B K. cbn [fills_then]. apply HK.
Qed.

Lemma memset_switch_fills by8 out s :
  0 <= by8 < 8 ->
  memset_switch cfg c 8 by8 out s =
  fills_then (Z.to_nat by8) c 8 out (fun out => assert cfg false ;; ret out) s.
Proof.
  intros H.
  assert (by8 = 0 \/ by8 = 1 \/ by8 = 2 \/ by8 = 3 \/
          by8 = 4 \/ by8 = 5 \/ by8 = 6 \/ by8 = 7) as C by lia.
  repeat (destruct C as [-> | C]); try subst by8; reflexivity.
Qed.

Lemma memset_loop_returns :
  forall n j q s,
    (j < n)%nat -> 8 * Z.of_nat j < 2 ^ 32 ->
    I q s -> lo <= q -> q + 8 * (8 * Z.of_nat j) = hi ->
    returns (memset_loop n c 8 (8 * Z.of_nat j) q s)
            (fun r s' => r = hi /\ I hi s').
Proof.
  induction n as [|n IH]; intros j q s Hj Hu HI Hlo Hq; [lia|].
  cbn [memset_loop].
  destruct (8 * Z.of_nat j =? 0) eqn:E.
  - apply Z.eqb_eq in E. cbn [ret returns].
    replace q with hi in * by lia. auto.
  - apply Z.eqb_neq in E.
    destruct j as [|j]; [lia|].
    change (returns (fills_then 8 c 8 q
              (fun out => memset_loop n c 8 (wrap (8 * Z.of_nat (S j) - 8)) out) s)
              (fun r s' => r = hi /\ I hi s')).
    destruct (fills_then_eq 8 q s) as [s' [Hs' HK]]; [assumption | assumption | lia |].
    rewrite HK.
    replace (wrap (8 * Z.of_nat (S j) - 8)) with (8 * Z.of_nat j)
      by (rewrite wrap_small; [lia | unfold is_unsigned; lia]).
    apply IH; [lia | lia | assumption | lia | lia].
Qed.

(** Up to the end of the switch. *)
Lemma byte_memset_prefix out len s :
  lo = out -> hi = out + len -> c = mem s (out - 1) ->
  is_unsigned len -> 8 <= len ->
  I out s ->
  exists s1,
    I (out + len mod 8 + 8 * (len / 8 mod 8)) s1 /\
    byte_memset cfg fuel out len s =
    (assert cfg false ;;
     memset_loop fuel c 8 (8 * Z.of_nat (Z.to_nat (len / 8 / 8)))
       (out + len mod 8 + 8 * (len / 8 mod 8))) s1.
Proof.
  intros Hl Hh Hc Hu Hlen HI.
  pose proof (Z.div_mod len 8 ltac:(lia)) as Hdm.
  pose proof (Z.mod_pos_bound len 8 ltac:(lia)) as Hrem.
  assert (1 <= len / 8) as Hq by (apply Z.div_le_lower_bound; lia).
  pose proof (Z.div_mod (len / 8) 8 ltac:(lia)) as Hdm8.
  pose proof (Z.mod_pos_bound (len / 8) 8 ltac:(lia)) as Hby8.
  assert (0 <= len / 8 / 8) as Hj by (apply Z.div_pos; lia).
  unfold is_unsigned in Hu.
  destruct (fills_then_eq (Z.to_nat (len / 8 mod 8)) (out + len mod 8)
              (stored out (repeat c (Z.to_nat 8)) s)) as [s1 [Hs1 HK]].
  - apply I_down with (out + 8); [lia|]. apply I_step; [assumption | lia | lia].
  - lia.
  - lia.
  - exists s1. rewrite Z2Nat.id in Hs1 by lia. split; [assumption|].
    unfold byte_memset. unfold bind at 1. cbn [deref]. rewrite <- Hc.
    unfold bind at 1. rewrite assert_true by (apply Z.leb_le; assumption).
    unfold bind at 1. cbn [MEMSET MEMCPY_store].
    unfold bind at 1. rewrite memset_switch_fills by assumption.
    rewrite HK. rewrite Z2Nat.id by lia.
    replace (wrap (len / 8 - (len / 8) mod 8))
      with (8 * Z.of_nat (Z.to_nat (len / 8 / 8)))
      by (rewrite wrap_small; [lia | unfold is_unsigned; lia]).
    unfold bind. destruct (assert cfg false s1); reflexivity.
Qed.

Lemma byte_memset_release out len s :
  lo = out -> hi = out + len -> c = mem s (out - 1) ->
  is_unsigned len -> 8 <= len -> enough fuel len ->
  I out s -> NDEBUG cfg = true ->
  returns (byte_memset cfg fuel out len s) (fun r s' => r = out + len /\ I hi s').
Proof.
  intros Hl Hh Hc Hu Hlen Hf HI HN.
  destruct (byte_memset_prefix out len s) as [s1 [Hs1 E]]; try assumption.
  rewrite E. apply returns_bind. rewrite assert_ndebug by assumption. cbn [returns].
  pose proof (Z.div_mod len 8 ltac:(lia)) as Hdm.
  pose proof (Z.mod_pos_bound len 8 ltac:(lia)) as Hrem.
  assert (1 <= len / 8) as Hq by (apply Z.div_le_lower_bound; lia).
  pose proof (Z.div_mod (len / 8) 8 ltac:(lia)) as Hdm8.
  pose proof (Z.mod_pos_bound (len / 8) 8 ltac:(lia)) as Hby8.
  assert (0 <= len / 8 / 8) as Hj by (apply Z.div_pos; lia).
  unfold is_unsigned in Hu. unfold enough in Hf.
  eapply returns_weaken; [| apply memset_loop_returns; try eassumption].
  - cbv beta. intros r s' [Hr Hs']. split; [lia | assumption].
  - lia.
  - lia.
  - lia.
  - rewrite Z2Nat.id by lia. lia.
Qed.

Lemma byte_memset_debug out len s :
  lo = out -> hi = out + len -> c = mem s (out - 1) ->
  is_unsigned len -> 8 <= len ->
  I out s -> NDEBUG cfg = false ->
  exists s1 p, I p s1 /\ byte_memset cfg fuel out len s = Abort s1.
Proof.
  intros Hl Hh Hc Hu Hlen HI HN.
  destruct (byte_memset_prefix out len s) as [s1 [Hs1 E]]; try assumption.
  exists s1. eexists. split; [eassumption|].
  rewrite E. unfold bind. now rewrite assert_fails.
Qed.
End FillRule.

Lemma byte_memset_within cfg fuel out len s :
  is_unsigned len -> 8 <= len -> enough fuel len ->
  halts (byte_memset cfg fuel out len s) (within out (out + len) s).
Proof.
  intros Hu Hlen Hf.
  assert (forall q s1, within out (out + len) s s1 -> out <= q -> q + 8 <= out + len ->
          within out (out + len) s (stored q (repeat (mem s (out - 1)) (Z.to_nat 8)) s1)) as Hstep.
  { intros q s1 H1 Hlo Hhi. apply within_stored_step; [assumption | lia |].
    rewrite repeat_length. lia. }
  destruct (NDEBUG cfg) eqn:HN.
  - apply returns_halts.
    eapply returns_weaken;
      [| apply (byte_memset_release cfg fuel (mem s (out - 1)) out (out + len)
                  (fun _ s' => within out (out + len) s s'));
         try reflexivity; try assumption ].
    + cbv beta. intros r s' [_ H]. exact H.
    + auto.
    + apply within_refl.
  - destruct (byte_memset_debug cfg fuel (mem s (out - 1)) out (out + len)
                (fun _ s' => within out (out + len) s s'))
      with (out := out) (len := len) (s := s) as [s1 [p [H1 E]]];
      try reflexivity; try assumption.
    + auto.
    + apply within_refl.
    + rewrite E. exact H1.
Qed.

Lemma byte_memset_fill cfg fuel out len s :
  NDEBUG cfg = true ->
  is_unsigned len -> 8 <= len -> enough fuel len ->
  returns (byte_memset cfg fuel out len s)
          (fun r s' => r = out + len /\ cyclic out 1 len s s').
Proof.
  intros HN Hu Hlen Hf.
  eapply returns_weaken;
    [| apply (byte_memset_release cfg fuel (mem s (out - 1)) out (out + len)
                (toward (pattern_mem (mem s) out 1 len) (out + len)));
       try reflexivity; try assumption ].
  - cbv beta. intros r s' [Hr H]. split; [assumption|].
    apply pattern_mem_cyclic. now apply (toward_all _ (out + len)).
  - intros p p' s1. apply toward_down.
  - intros q s1 [H1 H2] Hlo Hhi. split; intros a Ha; unfold stored; cbn [mem].
    + destruct (Z_lt_le_dec a q).
      * rewrite store_repeat_out by lia. apply H1. lia.
      * rewrite store_repeat_in by lia. rewrite pattern_mem_in by lia.
        rewrite Z.mod_1_r. f_equal. lia.
    + rewrite store_repeat_out by lia. now apply H2.
  - apply toward_pattern_start.
Qed.

Lemma byte_memset_aborts cfg fuel out len s :
  NDEBUG cfg = false -> is_unsigned len ->
  exists s', byte_memset cfg fuel out len s = Abort s'.
Proof.
  intros HN Hu. destruct (Z_lt_le_dec len 8) as [Hl | Hl].
  - exists s. unfold byte_memset, bind. cbn [deref].
    replace (8 <=? len) with false by (symmetry; apply Z.leb_gt; lia).
    now rewrite assert_fails.
  - destruct (byte_memset_debug cfg fuel (mem s (out - 1)) out (out + len)
                (fun _ _ => True))
      with (out := out) (len := len) (s := s) as [s1 [p [_ E]]];
      try reflexivity; try assumption; auto.
    now exists s1.
Qed.

(** ** [chunk_memset] *)

Lemma pattern_mem_shift_mult m out dist len a D :
  0 < dist -> 0 <= D -> D mod dist = 0 ->
  out <= a < out + len -> out - dist <= a - D ->
  pattern_mem m out dist len (a - D) = pattern_mem m out dist len a.
Proof.
  intros Hd HD Hm Ha Hlow.
  apply Z.div_exact in Hm; [|lia].
  rewrite (pattern_mem_in m out dist len a) by assumption.
  assert ((a - D - out + dist) mod dist = (a - out) mod dist) as Hmod.
  { replace (a - D - out + dist) with (a - out + (1 - D / dist) * dist) by nia.
    apply Z.mod_add. lia. }
  destruct (Z_lt_le_dec (a - D) out) as [Hl | Hl].
  - rewrite pattern_mem_out by lia. f_equal.
    rewrite <- Hmod. rewrite Z.mod_small by lia. lia.
  - rewrite pattern_mem_in by lia. f_equal. f_equal.
    rewrite <- Hmod.
    replace (a - D - out + dist) with (a - D - out + 1 * dist) by lia.
    now rewrite Z.mod_add by lia.
Qed.

(** A run of [n] bytes that repeats the [p + d0] bytes before [out0 + p]
    carries the period-[d0] pattern on. *)
Lemma toward_pattern_extend m0 out0 d0 len0 p n s1 s2 :
  0 < d0 -> 0 <= p -> p mod d0 = 0 -> 0 <= n -> p + n <= len0 ->
  toward (pattern_mem m0 out0 d0 len0) (out0 + len0) (out0 + p) s1 ->
  cyclic (out0 + p) (p + d0) n s1 s2 ->
  (forall a, a < out0 + p -> mem s2 a = mem s1 a) ->
  (forall a, out0 + len0 <= a -> mem s2 a = mem s1 a) ->
  toward (pattern_mem m0 out0 d0 len0) (out0 + len0) (out0 + p + n) s2.
Proof.
  intros Hd Hp Hpm Hn Hlen [H1 H2] Hc Hlo Hhi. split; intros a Ha.
  - destruct (Z_lt_le_dec a (out0 + p)) as [Hl | Hl].
    + rewrite Hlo by assumption. now apply H1.
    + replace a with (out0 + p + (a - (out0 + p))) at 1 by lia.
      rewrite Hc by lia.
      pose proof (Z.mod_pos_bound (a - (out0 + p)) (p + d0) ltac:(lia)) as Hr.
      pose proof (Z.div_mod (a - (out0 + p)) (p + d0) ltac:(lia)) as Hdm.
      assert (0 <= (a - (out0 + p)) / (p + d0)) as Hq by (apply Z.div_pos; lia).
      rewrite H1 by lia.
      set (k := (a - (out0 + p)) / (p + d0)) in *.
      set (r := (a - (out0 + p)) mod (p + d0)) in *.
      assert ((p + d0) * (k + 1) = (p + d0) * k + (p + d0)) as Hk by ring.
      replace (out0 + p - (p + d0) + r) with (a - (p + d0) * (k + 1)) by lia.
      apply Z.div_exact in Hpm; [|lia].
      apply pattern_mem_shift_mult.
      * lia.
      * nia.
      * replace ((p + d0) * (k + 1))
          with (0 + ((p / d0 + 1) * (k + 1)) * d0) by nia.
        rewrite Z.mod_add by lia. apply Z.mod_0_l. lia.
      * lia.
      * lia.
  - rewrite Hhi by assumption. now apply H2.
Qed.

Lemma loop_update_small l :
  0 <= l_dist l -> loop_cond l = true -> is_unsigned (l_len l) ->
  loop_update l =
  mkLocals (l_out l + l_dist l) (l_from l) (2 * l_dist l) (l_len l - l_dist l).
Proof.
  unfold loop_cond, loop_update, is_unsigned. intros Hd Hc Hu.
  apply andb_prop in Hc. destruct Hc as [H1 H2].
  apply Z.ltb_lt in H1. apply Z.ltb_lt in H2.
  f_equal; (rewrite wrap_small; [lia | unfold is_unsigned; lia]).
Qed.

Section PatternDoubling.
Variable cfg : config.
Variable fuel : nat.

Lemma chunk_memset_loop_within : forall n l s,
  1 <= l_dist l -> 8 <= l_len l -> is_unsigned (l_len l) ->
  enough fuel (l_len l) -> (Z.to_nat (8 - l_dist l) < n)%nat ->
  returns (chunk_memset_loop cfg fuel n l s)
          (fun r s' => r = l_out l + l_len l /\
                       within (l_out l) (l_out l + l_len l) s s').
Proof.
  induction n as [|n IH]; intros l s Hd Hlen Hu Hf Hn; [lia|].
  cbn [chunk_memset_loop]. destruct (loop_cond l) eqn:Hc.
  - rewrite loop_update_small by (assumption || lia).
    unfold loop_cond in Hc. apply andb_prop in Hc. destruct Hc as [H1 H2].
    apply Z.ltb_lt in H1. apply Z.ltb_lt in H2.
    unfold is_unsigned, enough in *.
    apply returns_bind. rewrite copy_8_bytes_eq. cbn [returns l_out l_from l_dist l_len].
    assert (within (l_out l) (l_out l + l_len l) s
              (stored (l_out l) (load_bytes (mem s) (l_from l) (Z.to_nat 8)) s)) as W1.
    { apply within_stored. lia. rewrite load_bytes_length. lia. }
    destruct (l_len l - l_dist l <? 8) eqn:E.
    + apply Z.ltb_lt in E.
      eapply returns_weaken; [| apply set_bytes_within; unfold enough; lia].
      cbv beta. intros r s' [Hr Hs']. split; [lia|].
      eapply within_trans; [exact W1|].
      eapply within_mono; [| | exact Hs']; lia.
    + apply Z.ltb_ge in E.
      eapply returns_weaken; [| apply IH; cbn [l_out l_from l_dist l_len]; unfold is_unsigned, enough; lia].
      cbv beta. cbn [l_out l_from l_dist l_len]. intros r s' [Hr Hs']. split; [lia|].
      eapply within_trans; [exact W1|].
      eapply within_mono; [| | exact Hs']; lia.
  - apply chunk_memcpy_within; assumption.
Qed.

Lemma chunk_memset_within out from dist len s :
  1 <= dist -> 8 <= len -> is_unsigned len -> enough fuel len ->
  returns (chunk_memset cfg fuel out from dist len s)
          (fun r s' => r = out + len /\ within out (out + len) s s').
Proof.
  intros Hd Hlen Hu Hf. unfold chunk_memset.
  destruct (len <=? dist) eqn:E.
  - now apply chunk_memcpy_within.
  - apply returns_bind. rewrite assert_true by (apply Z.leb_le; assumption).
    cbn [returns].
    apply (chunk_memset_loop_within fuel (mkLocals out from dist len));
      cbn [l_out l_from l_dist l_len]; try assumption.
    unfold enough in Hf. lia.
Qed.

Section Cyclic.
Variable m0 : memory.
Variables out0 d0 len0 : Z.
Hypothesis d0_pos : 1 <= d0.
Hypothesis len0_unsigned : is_unsigned len0.
Hypothesis fuel_enough : enough fuel len0.

Let T := pattern_mem m0 out0 d0 len0.
Let hi := out0 + len0.

Lemma chunk_memset_loop_cyclic : forall n p s,
  (Z.to_nat (8 - (p + d0)) < n)%nat ->
  0 <= p -> p mod d0 = 0 -> 8 <= len0 - p ->
  toward T hi (out0 + p) s ->
  returns (chunk_memset_loop cfg fuel n
             (mkLocals (out0 + p) (out0 - d0) (p + d0) (len0 - p)) s)
          (fun r s' => r = hi /\ forall a, mem s' a = T a).
Proof.
  unfold is_unsigned, enough in *.
  induction n as [|n IH]; intros p s Hn Hp Hpm Hlen Hs; [lia|].
  cbn [chunk_memset_loop]. destruct (loop_cond _) eqn:Hc.
  - rewrite loop_update_small
      by (cbn [l_out l_from l_dist l_len]; unfold is_unsigned; (assumption || lia)).
    unfold loop_cond in Hc. cbn [l_out l_from l_dist l_len] in *.
    apply andb_prop in Hc. destruct Hc as [H1 H2].
    apply Z.ltb_lt in H1. apply Z.ltb_lt in H2.
    apply returns_bind. rewrite copy_8_bytes_eq. cbn [returns].
    set (s1 := stored (out0 + p) (load_bytes (mem s) (out0 - d0) (Z.to_nat 8)) s).
    assert (toward T hi (out0 + p + (p + d0)) s1) as Hs1.
    { apply toward_pattern_extend with (s1 := s); try assumption; try lia.
      - intros i Hi. unfold s1, stored. cbn [mem].
        rewrite store_load_in by lia. rewrite Z.mod_small by lia. f_equal. lia.
      - intros a Ha. unfold s1, stored. cbn [mem]. apply store_load_out. lia.
      - intros a Ha. unfold s1, stored. cbn [mem]. apply store_load_out. lia. }
    assert ((p + (p + d0)) mod d0 = 0) as Hpm'.
    { apply Z.div_exact in Hpm; [|lia].
      replace (p + (p + d0)) with (0 + (2 * (p / d0) + 1) * d0) by nia.
      rewrite Z.mod_add by lia. apply Z.mod_0_l. lia. }
    destruct (len0 - p - (p + d0) <? 8) eqn:E.
    + apply Z.ltb_lt in E.
      replace (out0 - d0) with (out0 + p + (p + d0) - 2 * (p + d0)) by lia.
      pose proof (set_bytes_cyclic cfg fuel (out0 + p + (p + d0)) (2 * (p + d0))
                    (len0 - p - (p + d0)) s1 ltac:(lia) ltac:(lia)
                    ltac:(unfold enough; lia)) as HC.
      pose proof (set_bytes_within cfg fuel (out0 + p + (p + d0))
                    (out0 + p + (p + d0) - 2 * (p + d0)) (2 * (p + d0))
                    (len0 - p - (p + d0)) s1 ltac:(lia) ltac:(lia)
                    ltac:(unfold enough; lia)) as HW.
      pose proof (returns_and _ _ _ HC HW) as HB.
      eapply returns_weaken; [| exact HB].
      cbv beta. intros r s' [[Hr Hcy] [_ [_ Hfr]]]. split; [unfold hi; lia|].
      apply (toward_all T hi).
      replace hi with (out0 + (p + (p + d0)) + (len0 - p - (p + d0))) at 2 by (unfold hi; lia).
      apply toward_pattern_extend with (s1 := s1); try assumption; try lia.
      * replace (out0 + (p + (p + d0))) with (out0 + p + (p + d0)) by lia. exact Hs1.
      * replace (out0 + (p + (p + d0))) with (out0 + p + (p + d0)) by lia.
        replace (p + (p + d0) + d0) with (2 * (p + d0)) by lia. exact Hcy.
      * intros a Ha. apply Hfr. lia.
      * intros a Ha. apply Hfr. lia.
    + apply Z.ltb_ge in E.
      replace (out0 + p + (p + d0)) with (out0 + (p + (p + d0))) in * by lia.
      replace (2 * (p + d0)) with (p + (p + d0) + d0) by lia.
      replace (len0 - p - (p + d0)) with (len0 - (p + (p + d0))) by lia.
      apply IH; try assumption; lia.
  - unfold loop_cond in Hc. cbn [l_out l_from l_dist l_len] in *.
    apply andb_false_iff in Hc.
    assert (8 <= p + d0) as Hd8.
    { destruct Hc as [Hc | Hc]; [apply Z.ltb_ge in Hc | apply Z.ltb_ge in Hc]; lia. }
    replace (out0 - d0) with (out0 + p - (p + d0)) by lia.
    pose proof (chunk_memcpy_cyclic cfg fuel (out0 + p) (p + d0) (len0 - p) s
                  ltac:(unfold is_unsigned; lia) ltac:(lia)
                  ltac:(unfold enough; lia) ltac:(lia)) as HC.
    pose proof (chunk_memcpy_within cfg fuel (out0 + p) (out0 + p - (p + d0))
                  (len0 - p) s
                  ltac:(unfold is_unsigned; lia) ltac:(lia)
                  ltac:(unfold enough; lia)) as HW.
    pose proof (returns_and _ _ _ HC HW) as HB.
    eapply returns_weaken; [| exact HB].
    cbv beta. intros r s' [[Hr Hcy] [_ [_ Hfr]]]. split; [unfold hi; lia|].
    apply (toward_all T hi).
    replace hi with (out0 + p + (len0 - p)) at 2 by (unfold hi; lia).
    apply toward_pattern_extend with (s1 := s); try assumption; try lia.
    * intros a Ha. apply Hfr. lia.
    * intros a Ha. apply Hfr. lia.
Qed.
End Cyclic.

Lemma chunk_memset_cyclic out dist len s :
  1 <= dist -> 8 <= len -> is_unsigned len -> enough fuel len ->
  returns (chunk_memset cfg fuel out (out - dist) dist len s)
          (fun r s' => r = out + len /\ cyclic out dist len s s').
Proof.
  intros Hd Hlen Hu Hf. unfold chunk_memset.
  destruct (len <=? dist) eqn:E.
  - apply Z.leb_le in E. apply chunk_memcpy_cyclic; try assumption. lia.
  - apply returns_bind. rewrite assert_true by (apply Z.leb_le; assumption).
    cbn [returns].
    pose proof (chunk_memset_loop_cyclic (mem s) out dist len Hd Hu Hf fuel 0 s) as H.
    replace (out + 0) with out in H by lia.
    replace (0 + dist) with dist in H by lia.
    replace (len - 0) with len in H by lia.
    eapply returns_weaken; [| apply H].
    + cbv beta. intros r s' [Hr Hs']. split; [assumption|].
      now apply pattern_mem_cyclic.
    + unfold enough in Hf. lia.
    + lia.
    + apply Z.mod_0_l. lia.
    + lia.
    + apply toward_pattern_start.
Qed.
End PatternDoubling.

(** ** The entry points *)

Section EntryPoints.
Variable cfg : config.
Variable fuel : nat.

Lemma chunk_copy_within out from dist len s :
  is_unsigned len -> is_unsigned dist -> enough fuel len ->
  halts (chunk_copy cfg fuel out from dist len s) (within out (out + len) s).
Proof.
  unfold is_unsigned. intros Hu Hd Hf. unfold chunk_copy.
  destruct (len <? 8) eqn:E8.
  - apply Z.ltb_lt in E8. apply returns_halts. destruct (0 <? dist).
    + eapply returns_weaken; [| apply set_bytes_within; (assumption || lia)].
      cbv beta. intros r s' [_ H]. exact H.
    + eapply returns_weaken; [| apply copy_bytes_within; (assumption || lia)].
      cbv beta. intros r s' [_ H]. exact H.
  - apply Z.ltb_ge in E8. destruct (dist =? 1) eqn:E1.
    + now apply byte_memset_within.
    + apply Z.eqb_neq in E1. apply returns_halts. destruct (0 <? dist) eqn:E0.
      * apply Z.ltb_lt in E0.
        eapply returns_weaken;
          [| apply chunk_memset_within; (assumption || unfold is_unsigned; lia)].
        cbv beta. intros r s' [_ H]. exact H.
      * eapply returns_weaken;
          [| apply chunk_memcpy_within; (assumption || unfold is_unsigned; lia)].
        cbv beta. intros r s' [_ H]. exact H.
Qed.

Lemma chunk_copy_copied out from dist len s :
  is_unsigned len -> is_unsigned dist -> enough fuel len ->
  dist = 0 \/ len <= dist -> disjoint out from len ->
  returns (chunk_copy cfg fuel out from dist len s)
          (fun r s' => r = out + len /\ copied out from len s s').
Proof.
  unfold is_unsigned. intros Hu Hd Hf Hdist Hdis. unfold chunk_copy.
  destruct (len <? 8) eqn:E8.
  - apply Z.ltb_lt in E8. destruct (0 <? dist) eqn:E0.
    + apply Z.ltb_lt in E0. rewrite set_bytes_copy_bytes by lia.
      apply copy_bytes_copied; (assumption || lia).
    + apply copy_bytes_copied; (assumption || lia).
  - apply Z.ltb_ge in E8.
    replace (dist =? 1) with false by (symmetry; apply Z.eqb_neq; lia).
    destruct (0 <? dist) eqn:E0.
    + apply Z.ltb_lt in E0. unfold chunk_memset.
      replace (len <=? dist) with true by (symmetry; apply Z.leb_le; lia).
      apply chunk_memcpy_copied; (assumption || unfold is_unsigned; lia).
    + apply chunk_memcpy_copied; (assumption || unfold is_unsigned; lia).
Qed.

Lemma chunk_copy_cyclic out dist len s :
  is_unsigned len -> is_unsigned dist -> enough fuel len ->
  1 <= dist -> len < 8 \/ 1 < dist \/ NDEBUG cfg = true ->
  returns (chunk_copy cfg fuel out (out - dist) dist len s)
          (fun r s' => r = out + len /\ cyclic out dist len s s').
Proof.
  unfold is_unsigned. intros Hu Hd Hf H1 Hok. unfold chunk_copy.
  replace (0 <? dist) with true by (symmetry; apply Z.ltb_lt; lia).
  destruct (len <? 8) eqn:E8.
  - apply Z.ltb_lt in E8. apply set_bytes_cyclic; (assumption || lia).
  - apply Z.ltb_ge in E8. destruct (dist =? 1) eqn:E1.
    + apply Z.eqb_eq in E1. subst dist.
      destruct Hok as [Hok | [Hok | Hok]]; try lia.
      apply byte_memset_fill; (assumption || unfold is_unsigned; lia).
    + apply chunk_memset_cyclic; (assumption || unfold is_unsigned; lia).
Qed.

Lemma fast_copy_within out from len s :
  is_unsigned len -> enough fuel len ->
  returns (fast_copy cfg fuel out from len s)
          (fun r s' => r = out + len /\ within out (out + len) s s').
Proof.
  unfold is_unsigned. intros Hu Hf. unfold fast_copy.
  destruct (len <? 8) eqn:E8.
  - apply Z.ltb_lt in E8. apply copy_bytes_within; (assumption || lia).
  - apply Z.ltb_ge in E8. destruct (SSE2 cfg).
    + destruct (len <? 16) eqn:E16.
      * apply chunk_memcpy_within; (assumption || unfold is_unsigned; lia).
      * apply Z.ltb_ge in E16.
        apply chunk_memcpy_16_within; (assumption || unfold is_unsigned; lia).
    + apply chunk_memcpy_within; (assumption || unfold is_unsigned; lia).
Qed.

Lemma safe_copy_within out from len s :
  is_unsigned len -> enough fuel len ->
  returns (safe_copy cfg fuel out from len s)
          (fun r s' => r = out + len /\ within out (out + len) s s').
Proof.
  intros Hu Hf. unfold safe_copy.
  destruct (Z.abs (from - out) <? chunk_width cfg).
  - rewrite copy_for_while. now apply copy_while_within.
  - now apply fast_copy_within.
Qed.
End EntryPoints.

Lemma bytewise_copy_ext n : forall out from m m',
  (forall a, m a = m' a) ->
  forall a, bytewise_copy n out from m a = bytewise_copy n out from m' a.
Proof.
  induction n as [|n IH]; intros out from m m' H a; cbn [bytewise_copy].
  - apply H.
  - apply IH. intros b. rewrite (H from). destruct (b =? out); [reflexivity | apply H].
Qed.

Lemma copy_while_bytewise : forall k n out from s,
  enough n (Z.of_nat k) -> is_unsigned (Z.of_nat k) ->
  returns (copy_while n out from (Z.of_nat k) s)
          (fun r s' => r = out + Z.of_nat k /\
                       forall a, mem s' a = bytewise_copy k out from (mem s) a).
Proof.
  unfold enough, is_unsigned.
  induction k as [|k IH]; intros n out from s Hn Hu.
  - destruct n as [|n]; [lia|]. cbn. split; [lia | reflexivity].
  - destruct n as [|n]; [lia|]. cbn [copy_while].
    replace (Z.of_nat (S k) =? 0) with false by (symmetry; apply Z.eqb_neq; lia).
    unfold bind. cbn [deref assign MEMCPY_store].
    replace (wrap (Z.of_nat (S k) - 1)) with (Z.of_nat k)
      by (rewrite wrap_small; [lia | unfold is_unsigned; lia]).
    eapply returns_weaken; [| apply IH; lia].
    cbv beta. intros r s' [Hr Hs']. split; [lia|].
    intros a. rewrite Hs'. cbn [bytewise_copy]. apply bytewise_copy_ext.
    intros b. unfold stored. cbn [mem].
    destruct (b =? out) eqn:E.
    + apply Z.eqb_eq in E. now rewrite store_one_in.
    + apply Z.eqb_neq in E. now rewrite store_one_out.
Qed.

(** * The claims *)

Lemma load_bytes_eq m p l :
  (forall i, (i < length l)%nat -> m (p + Z.of_nat i) = nth i l x00) ->
  load_bytes m p (length l) = l.
Proof.
  intros H. apply (nth_ext _ _ x00 x00).
  - apply load_bytes_length.
  - intros i Hi. rewrite load_bytes_length in Hi.
    rewrite nth_load_bytes by assumption. now apply H.
Qed.

Lemma memset_switch_aborts cfg c by8 p s :
  NDEBUG cfg = false -> 0 <= by8 < 8 ->
  exists s', memset_switch cfg c 8 by8 p s = Abort s'.
Proof.
  intros HN Hb. rewrite memset_switch_fills by assumption.
  destruct (fills_then_eq c p (p + 8 * Z.of_nat (Z.to_nat by8)) (fun _ _ => True))
    with (k := Z.to_nat by8) (q := p) (s := s) as [s' [_ HK]]; auto; try lia.
  exists s'. rewrite HK. unfold bind. now rewrite assert_fails.
Qed.

(** C1.  The claim is that for [len >= 8] no assertion of [byte_memset]
    fails, the [assert(0)] under [default:] being unreachable.  The code
    does the opposite: [case 1] falls through into [default], and a jump to
    [default] lands there as well, so with assertions enabled the switch
    aborts for every value of [by8], and [byte_memset] aborts on every call
    in its documented domain. *)
Theorem byte_memset_default_assert_fires cfg fuel out len s :
  NDEBUG cfg = false -> is_unsigned len -> 8 <= len ->
  (forall c by8 p s1, 0 <= by8 < 8 ->
     exists s2, memset_switch cfg c 8 by8 p s1 = Abort s2) /\
  exists s', byte_memset cfg fuel out len s = Abort s'.
Proof.
  intros HN Hu Hlen. split.
  - intros c by8 p s1 Hb. now apply memset_switch_aborts.
  - now apply byte_memset_aborts.
Qed.

Lemma byte_memset_default_assert_fires_witness :
  NDEBUG debug_cfg = false /\ is_unsigned 8 /\ 8 <= 8 /\
  exists s', byte_memset debug_cfg 64 100 8 st0 = Abort s'.
Proof.
  split; [reflexivity|]. split; [unfold is_unsigned; lia|]. split; [lia|].
  apply (byte_memset_default_assert_fires debug_cfg 64 100 8 st0);
    [reflexivity | unfold is_unsigned; lia | lia].
Defined.

(** C2.  [byte_memset] on 20 bytes behind a byte [0x7A]: a build without
    assertions returns [out + 20] and leaves twenty bytes [0x7A]; a build
    with assertions aborts at the [assert(0)] of C1 and never returns. *)
Theorem byte_memset_20_x7a cfg fuel out s :
  enough fuel 20 -> mem s (out - 1) = x7a ->
  if NDEBUG cfg
  then returns (byte_memset cfg fuel out 20 s)
         (fun r s' => r = out + 20 /\ load_bytes (mem s') out 20 = repeat x7a 20)
  else exists s', byte_memset cfg fuel out 20 s = Abort s'.
Proof.
  intros Hf Hc. destruct (NDEBUG cfg) eqn:HN.
  - eapply returns_weaken;
      [| apply byte_memset_fill; [assumption | unfold is_unsigned; lia | lia | assumption]].
    cbv beta. intros r s' [Hr Hcy]. split; [assumption|].
    apply (load_bytes_eq (mem s') out (repeat x7a 20)).
    intros i Hi. rewrite repeat_length in Hi.
    rewrite Hcy by lia. rewrite Z.mod_1_r, Z.add_0_r, Hc.
    symmetry. now apply nth_repeat_lt.
  - apply byte_memset_aborts; [assumption | unfold is_unsigned; lia].
Qed.

Lemma byte_memset_20_x7a_witness :
  enough 64 20 /\ mem st7a (100 - 1) = x7a /\
  exists s', byte_memset debug_cfg 64 100 20 st7a = Abort s'.
Proof.
  split; [unfold enough; lia|]. split; [reflexivity|].
  apply (byte_memset_20_x7a debug_cfg 64 100 st7a);
    [unfold enough; lia | reflexivity].
Defined.

(** C3.  [chunk_copy(out, out - 4, 4, 11)] behind the bytes A, B, C, D
    returns [out + 11], leaves A,B,C,D,A,B,C,D,A,B,C in [out[0..10]] and
    stores nowhere else, in every build. *)
Theorem chunk_copy_dist4_len11 cfg fuel out s A B C D :
  enough fuel 11 ->
  load_bytes (mem s) (out - 4) 4 = [A; B; C; D] ->
  returns (chunk_copy cfg fuel out (out - 4) 4 11 s)
    (fun r s' =>
       r = out + 11 /\
       load_bytes (mem s') out 11 = [A; B; C; D; A; B; C; D; A; B; C] /\
       within out (out + 11) s s').
Proof.
  intros Hf Hsrc.
  assert (forall j, (j < 4)%nat ->
            mem s (out - 4 + Z.of_nat j) = nth j [A; B; C; D] x00) as Hpat.
  { intros j Hj. rewrite <- Hsrc. now rewrite nth_load_bytes. }
  pose proof (Hpat 0%nat ltac:(lia)) as H0.
  pose proof (Hpat 1%nat ltac:(lia)) as H1.
  pose proof (Hpat 2%nat ltac:(lia)) as H2.
  pose proof (Hpat 3%nat ltac:(lia)) as H3.
  cbn [nth Z.of_nat Pos.of_succ_nat Pos.succ] in H0, H1, H2, H3.
  pose proof (chunk_copy_cyclic cfg fuel out 4 11 s
                ltac:(unfold is_unsigned; lia) ltac:(unfold is_unsigned; lia)
                Hf ltac:(lia) ltac:(right; left; lia)) as HC.
  pose proof (chunk_copy_within cfg fuel out (out - 4) 4 11 s
                ltac:(unfold is_unsigned; lia) ltac:(unfold is_unsigned; lia)
                Hf) as HW.
  destruct (chunk_copy cfg fuel out (out - 4) 4 11 s) as [r s' | s' |];
    cbn [returns halts] in *; try contradiction.
  destruct HC as [Hr Hcy]. split; [assumption|]. split; [|assumption].
  apply (load_bytes_eq (mem s') out [A; B; C; D; A; B; C; D; A; B; C]).
  intros i Hi. cbn [length] in Hi. rewrite Hcy by lia.
  do 11 (destruct i as [|i];
         [ match goal with
           | |- mem s (out - 4 + ?e) = ?rhs =>
               let v := eval vm_compute in e in
               let w := eval cbn [nth] in rhs in
               change (mem s (out - 4 + v) = w)
           end; assumption |]).
  lia.
Qed.

Lemma chunk_copy_dist4_len11_witness :
  enough 12 11 /\
  load_bytes (mem st0) (100 - 4) 4 = [x41; x42; x43; x44] /\
  returns (chunk_copy debug_cfg 12 100 (100 - 4) 4 11 st0)
    (fun r s' =>
       r = 100 + 11 /\
       load_bytes (mem s') 100 11 =
         [x41; x42; x43; x44; x41; x42; x43; x44; x41; x42; x43] /\
       within 100 (100 + 11) st0 s').
Proof.
  split; [unfold enough; lia|]. split; [reflexivity|].
  apply (chunk_copy_dist4_len11 debug_cfg 12 100 st0 x41 x42 x43 x44);
    [unfold enough; lia | reflexivity].
Defined.

(** C4, as stated, fails for [chunk_memset]: on a run shorter than eight
    bytes a build with assertions stops at [assert(len >= sizeof(uint64_t))]
    instead of returning [out + len]. *)
Lemma chunk_memset_short_run_aborts :
  chunk_memset debug_cfg 64 100 (100 - 2) 2 3 st0 = Abort st0 /\
  ~ returns (chunk_memset debug_cfg 64 100 (100 - 2) 2 3 st0)
      (fun r s' => r = 100 + 3 /\ cyclic 100 2 3 st0 s').
Proof.
  assert (chunk_memset debug_cfg 64 100 (100 - 2) 2 3 st0 = Abort st0) as E
    by reflexivity.
  split; [exact E|]. rewrite E. cbn [returns]. tauto.
Qed.

(** Without assertions the same call stores eight bytes at [out], five of
    them past [out + len]. *)
Lemma chunk_memset_short_run_overshoots :
  match chunk_memset release_cfg 64 100 (100 - 2) 2 3 st0 with
  | Done r s' => r = 103 /\ In 107 (wlog s')
  | _ => False
  end.
Proof. cbn. split; [reflexivity|]. right. left. reflexivity. Qed.

(** C4, amended.  For [dist] in [1,7], [len] in [dist, 8) and
    [from = out - dist], [set_bytes] returns [out + len] and leaves the
    [dist]-byte pattern repeated over [len] bytes; for [dist >= len] it is
    the very call [copy_bytes(out, from, len)], a plain copy of [len]
    bytes.  [chunk_memset] gives the same pattern on its own domain,
    [len >= 8]. *)
Theorem set_bytes_pattern cfg fuel out s :
  (forall dist len,
     1 <= dist <= 7 -> dist <= len < 8 -> enough fuel len ->
     returns (set_bytes cfg fuel out (out - dist) dist len s)
       (fun r s' => r = out + len /\ cyclic out dist len s s')) /\
  (forall from dist len,
     0 <= len < 8 -> len <= dist -> enough fuel len ->
     set_bytes cfg fuel out from dist len s = copy_bytes cfg fuel out from len s /\
     returns (set_bytes cfg fuel out (out - dist) dist len s)
       (fun r s' => r = out + len /\ copied out (out - dist) len s s')) /\
  (forall dist len,
     1 <= dist -> 8 <= len -> is_unsigned len -> enough fuel len ->
     returns (chunk_memset cfg fuel out (out - dist) dist len s)
       (fun r s' => r = out + len /\ cyclic out dist len s s')).
Proof.
  split; [|split].
  - intros dist len Hd Hl Hf. apply set_bytes_cyclic; (assumption || lia).
  - intros from dist len Hl Hd Hf. split.
    + now apply set_bytes_copy_bytes.
    + rewrite set_bytes_copy_bytes by assumption.
      apply copy_bytes_copied; [assumption | assumption | left; lia].
  - intros dist len Hd Hl Hu Hf. now apply chunk_memset_cyclic.
Qed.

Lemma set_bytes_pattern_witness :
  1 <= 3 <= 7 /\ 3 <= 7 < 8 /\ enough 8 7 /\
  returns (set_bytes release_cfg 8 100 (100 - 3) 3 7 st0)
    (fun r s' => r = 100 + 7 /\ cyclic 100 3 7 st0 s').
Proof.
  split; [lia|]. split; [lia|]. split; [unfold enough; lia|].
  apply (proj1 (set_bytes_pattern release_cfg 8 100 st0) 3 7);
    [lia | lia | unfold enough; lia].
Defined.

(** With [dist = 0] the doubling loop makes no progress: it uses up any
    fuel.  [chunk_copy] never calls [chunk_memset] that way. *)
Example chunk_memset_dist0_spins :
  chunk_memset release_cfg 20 100 100 0 20 st0 = Timeout.
Proof. reflexivity. Qed.

(** C5.  For [1 < dist < len] and [len >= 8], [chunk_memset] returns, with
    [out + len] and the cyclic pattern, whenever the fuel exceeds [len];
    each iteration of its loop takes [dist >= 2] off [len] and doubles
    [dist].  The cases [dist = len - 1], [dist = 2] and [dist = 8] are
    instances. *)
Theorem chunk_memset_terminates cfg fuel out dist len s :
  1 < dist < len -> 8 <= len -> is_unsigned len -> enough fuel len ->
  returns (chunk_memset cfg fuel out (out - dist) dist len s)
    (fun r s' => r = out + len /\ cyclic out dist len s s') /\
  (forall l, 2 <= l_dist l -> is_unsigned (l_len l) -> loop_cond l = true ->
     l_len (loop_update l) = l_len l - l_dist l /\
     l_len (loop_update l) < l_len l /\
     l_dist (loop_update l) = 2 * l_dist l).
Proof.
  intros Hd Hl Hu Hf. split.
  - apply chunk_memset_cyclic; (assumption || lia).
  - intros l H2 Hul Hc. rewrite loop_update_small by (assumption || lia).
    cbn [l_len l_dist]. lia.
Qed.

Lemma chunk_memset_terminates_witness :
  1 < 2 < 9 /\ 8 <= 9 /\ is_unsigned 9 /\ enough 10 9 /\
  returns (chunk_memset debug_cfg 10 100 (100 - 2) 2 9 st0)
    (fun r s' => r = 100 + 9 /\ cyclic 100 2 9 st0 s').
Proof.
  split; [lia|]. split; [lia|]. split; [unfold is_unsigned; lia|].
  split; [unfold enough; lia|].
  apply (proj1 (chunk_memset_terminates debug_cfg 10 100 2 9 st0
                  ltac:(lia) ltac:(lia) ltac:(unfold is_unsigned; lia)
                  ltac:(unfold enough; lia))).
Defined.

Lemma backref_disjoint out dist len : len <= dist -> disjoint out (out - dist) len.
Proof. intros H. left. lia. Qed.

(** C6.  With [dist == 0] or [dist >= len], and source and destination
    disjoint, [chunk_copy] returns [out + len] and leaves memory as a plain
    copy of [len] bytes from [from] to [out] does, whichever routine the
    dispatch picks; a back-reference [from = out - dist] with [dist >= len]
    is such a disjoint source. *)
Theorem chunk_copy_plain cfg fuel out from dist len s :
  is_unsigned len -> is_unsigned dist -> enough fuel len ->
  dist = 0 \/ len <= dist ->
  disjoint out from len ->
  returns (chunk_copy cfg fuel out from dist len s)
    (fun r s' => r = out + len /\
                 (forall a, mem s' a = copy_mem (mem s) out from len a) /\
                 within out (out + len) s s') /\
  (len <= dist -> disjoint out (out - dist) len).
Proof.
  intros Hu Hd Hf Hdist Hdis. split; [| apply backref_disjoint].
  pose proof (chunk_copy_copied cfg fuel out from dist len s Hu Hd Hf Hdist Hdis) as HC.
  pose proof (chunk_copy_within cfg fuel out from dist len s Hu Hd Hf) as HW.
  destruct (chunk_copy cfg fuel out from dist len s) as [r s' | s' |];
    cbn [returns halts] in *; try contradiction.
  destruct HC as [Hr Hc]. split; [assumption|]. split; [|assumption].
  intros a. destruct (Z_lt_le_dec a out) as [Hl | Hl].
  - rewrite copy_mem_out by lia. apply (proj2 HW). lia.
  - destruct (Z_lt_le_dec a (out + len)) as [Hh | Hh].
    + rewrite copy_mem_in by lia.
      replace a with (out + (a - out)) at 1 by lia. apply Hc. lia.
    + rewrite copy_mem_out by lia. apply (proj2 HW). lia.
Qed.

Lemma chunk_copy_plain_witness :
  is_unsigned 11 /\ is_unsigned 0 /\ enough 12 11 /\ (0 = 0 \/ 11 <= 0) /\
  disjoint 100 50 11 /\
  returns (chunk_copy debug_cfg 12 100 50 0 11 st0)
    (fun r s' => r = 100 + 11 /\
                 (forall a, mem s' a = copy_mem (mem st0) 100 50 11 a) /\
                 within 100 (100 + 11) st0 s').
Proof.
  split; [unfold is_unsigned; lia|]. split; [unfold is_unsigned; lia|].
  split; [unfold enough; lia|]. split; [left; reflexivity|].
  split; [left; lia|].
  apply (proj1 (chunk_copy_plain debug_cfg 12 100 50 0 11 st0
                  ltac:(unfold is_unsigned; lia) ltac:(unfold is_unsigned; lia)
                  ltac:(unfold enough; lia) ltac:(left; reflexivity)
                  ltac:(left; lia))).
Defined.

(** C7.  When [|from - out|] is below the chunk width (16 with SSE2, 8
    without), [safe_copy] returns [out + len] and leaves memory exactly as
    the element-by-element left-to-right copy of [len] bytes does, whatever
    the overlap; otherwise it is the call [fast_copy(out, from, len)]. *)
Theorem safe_copy_refines cfg fuel out from len s :
  is_unsigned len -> enough fuel len ->
  (Z.abs (from - out) < chunk_width cfg ->
   returns (safe_copy cfg fuel out from len s)
     (fun r s' => r = out + len /\
                  forall a, mem s' a =
                            bytewise_copy (Z.to_nat len) out from (mem s) a)) /\
  (chunk_width cfg <= Z.abs (from - out) ->
   safe_copy cfg fuel out from len s = fast_copy cfg fuel out from len s).
Proof.
  intros Hu Hf. unfold safe_copy. split; intros Hd.
  - replace (Z.abs (from - out) <? chunk_width cfg) with true
      by (symmetry; apply Z.ltb_lt; assumption).
    rewrite copy_for_while.
    unfold is_unsigned in Hu.
    pose proof (copy_while_bytewise (Z.to_nat len) fuel out from s) as H.
    rewrite Z2Nat.id in H by lia. apply H; [assumption | exact Hu].
  - now replace (Z.abs (from - out) <? chunk_width cfg) with false
      by (symmetry; apply Z.ltb_ge; assumption).
Qed.

Lemma safe_copy_refines_witness :
  is_unsigned 5 /\ enough 6 5 /\ Z.abs (98 - 100) < chunk_width portable_cfg /\
  returns (safe_copy portable_cfg 6 100 98 5 st0)
    (fun r s' => r = 100 + 5 /\
                 forall a, mem s' a = bytewise_copy (Z.to_nat 5) 100 98 (mem st0) a).
Proof.
  split; [unfold is_unsigned; lia|]. split; [unfold enough; lia|].
  split; [cbn; lia|].
  apply (proj1 (safe_copy_refines portable_cfg 6 100 98 5 st0
                  ltac:(unfold is_unsigned; lia) ltac:(unfold enough; lia))).
  cbn. lia.
Defined.

Lemma chunk_width_bound cfg : 8 <= chunk_width cfg.
Proof. unfold chunk_width. destruct (SSE2 cfg); lia. Qed.

Lemma returns_within_mono (o : outcome Z) lo hi hi' s :
  hi <= hi' ->
  returns o (fun r s' => r = hi /\ within lo hi s s') ->
  returns o (fun _ s' => within lo hi' s s').
Proof.
  intros Hh. apply returns_weaken. cbv beta. intros r s' [_ H].
  eapply within_mono; [| | exact H]; lia.
Qed.

(** C8.  Under their preconditions the bulk routines store only inside
    [out, out + len + chunk_width - 1), and memory outside that interval is
    unchanged.  [byte_memset], and [chunk_copy] through it, may stop at the
    assertion of C1; what they stored until then obeys the same bound. *)
Theorem overshoot_contained cfg fuel out from dist len s :
  is_unsigned len -> is_unsigned dist -> enough fuel len ->
  (8 <= len ->
   returns (chunk_memcpy cfg fuel out from len s)
     (fun _ s' => within out (out + len + chunk_width cfg - 1) s s')) /\
  (16 <= len ->
   returns (chunk_memcpy_16 cfg fuel out from len s)
     (fun _ s' => within out (out + len + chunk_width cfg - 1) s s')) /\
  (8 <= len ->
   halts (byte_memset cfg fuel out len s)
     (within out (out + len + chunk_width cfg - 1) s)) /\
  (8 <= len -> 1 <= dist ->
   returns (chunk_memset cfg fuel out from dist len s)
     (fun _ s' => within out (out + len + chunk_width cfg - 1) s s')) /\
  halts (chunk_copy cfg fuel out from dist len s)
    (within out (out + len + chunk_width cfg - 1) s).
Proof.
  intros Hu Hd Hf. pose proof (chunk_width_bound cfg) as Hw.
  repeat split.
  - intros Hl. eapply returns_within_mono; [| now apply chunk_memcpy_within]. lia.
  - intros Hl. eapply returns_within_mono; [| now apply chunk_memcpy_16_within]. lia.
  - intros Hl. eapply halts_weaken; [| now apply byte_memset_within].
    cbv beta. intros s' H. eapply within_mono; [| | exact H]; lia.
  - intros Hl H1. eapply returns_within_mono; [| now apply chunk_memset_within]. lia.
  - eapply halts_weaken; [| now apply chunk_copy_within].
    cbv beta. intros s' H. eapply within_mono; [| | exact H]; lia.
Qed.

Lemma overshoot_contained_witness :
  is_unsigned 70 /\ is_unsigned 3 /\ enough 71 70 /\
  halts (chunk_copy release_cfg 71 100 (100 - 3) 3 70 st0)
    (within 100 (100 + 70 + chunk_width release_cfg - 1) st0).
Proof.
  split; [unfold is_unsigned; lia|]. split; [unfold is_unsigned; lia|].
  split; [unfold enough; lia|].
  exact (proj2 (proj2 (proj2 (proj2
           (overshoot_contained release_cfg 71 100 (100 - 3) 3 70 st0
              ltac:(unfold is_unsigned; lia) ltac:(unfold is_unsigned; lia)
              ltac:(unfold enough; lia)))))).
Defined.

(** C9.  Under their preconditions none of the routines stores at or
    beyond [out + len]: every store of [copy_bytes], [set_bytes],
    [chunk_memcpy], [chunk_memcpy_16], [byte_memset], [chunk_memset],
    [chunk_copy], [fast_copy] and [safe_copy] goes to [out, out + len), and
    memory outside is unchanged. *)
Theorem no_store_past_len cfg fuel out from dist len s :
  is_unsigned len -> is_unsigned dist -> enough fuel len ->
  (len < 8 ->
   returns (copy_bytes cfg fuel out from len s)
     (fun _ s' => within out (out + len) s s')) /\
  (len < 8 ->
   returns (set_bytes cfg fuel out from dist len s)
     (fun _ s' => within out (out + len) s s')) /\
  (8 <= len ->
   returns (chunk_memcpy cfg fuel out from len s)
     (fun _ s' => within out (out + len) s s')) /\
  (16 <= len ->
   returns (chunk_memcpy_16 cfg fuel out from len s)
     (fun _ s' => within out (out + len) s s')) /\
  (8 <= len ->
   halts (byte_memset cfg fuel out len s) (within out (out + len) s)) /\
  (8 <= len -> 1 <= dist ->
   returns (chunk_memset cfg fuel out from dist len s)
     (fun _ s' => within out (out + len) s s')) /\
  halts (chunk_copy cfg fuel out from dist len s) (within out (out + len) s) /\
  returns (fast_copy cfg fuel out from len s)
    (fun _ s' => within out (out + len) s s') /\
  returns (safe_copy cfg fuel out from len s)
    (fun _ s' => within out (out + len) s s').
Proof.
  intros Hu Hd Hf. unfold is_unsigned in Hu, Hd.
  assert (is_unsigned len) as Hu' by exact Hu.
  assert (is_unsigned dist) as Hd' by exact Hd.
  repeat split.
  - intros Hl.
    eapply returns_within_mono; [| apply copy_bytes_within; (assumption || lia)]. lia.
  - intros Hl.
    eapply returns_weaken; [| apply set_bytes_within; (assumption || lia)].
    cbv beta. intros r s' [_ H]. exact H.
  - intros Hl. eapply returns_within_mono; [| now apply chunk_memcpy_within]. lia.
  - intros Hl. eapply returns_within_mono; [| now apply chunk_memcpy_16_within]. lia.
  - intros Hl. now apply byte_memset_within.
  - intros Hl H1. eapply returns_within_mono; [| now apply chunk_memset_within]. lia.
  - now apply chunk_copy_within.
  - eapply returns_within_mono; [| now apply fast_copy_within]. lia.
  - eapply returns_within_mono; [| now apply safe_copy_within]. lia.
Qed.

Lemma no_store_past_len_witness :
  is_unsigned 70 /\ is_unsigned 3 /\ enough 71 70 /\
  halts (chunk_copy release_cfg 71 100 (100 - 3) 3 70 st0)
    (within 100 (100 + 70) st0).
Proof.
  split; [unfold is_unsigned; lia|]. split; [unfold is_unsigned; lia|].
  split; [unfold enough; lia|].
  exact (proj1 (proj2 (proj2 (proj2 (proj2 (proj2 (proj2
           (no_store_past_len release_cfg 71 100 (100 - 3) 3 70 st0
              ltac:(unfold is_unsigned; lia) ltac:(unfold is_unsigned; lia)
              ltac:(unfold enough; lia))))))))).
Defined.

Lemma loop_update_behind l :
  0 <= l_dist l -> loop_cond l = true ->
  l_from l = l_out l - l_dist l ->
  0 <= l_dist (loop_update l) /\
  l_from (loop_update l) = l_out (loop_update l) - l_dist (loop_update l).
Proof.
  unfold loop_cond, loop_update. intros Hd Hc Hi. cbn [l_out l_from l_dist l_len].
  apply andb_prop in Hc. destruct Hc as [_ H8]. apply Z.ltb_lt in H8.
  rewrite wrap_small by (unfold is_unsigned; lia). lia.
Qed.

(** C10.  The doubling loop keeps [from = out - dist]: one iteration
    preserves it, so it holds at every loop head reached, and the loop run
    with [from] is the loop run with [out - dist] in its place, call for
    call: each [copy_8_bytes], and the closing [set_bytes] or
    [chunk_memcpy], reads from [dist] bytes behind the write cursor. *)
Theorem doubling_keeps_from_behind cfg fuel l0 :
  0 <= l_dist l0 -> l_from l0 = l_out l0 - l_dist l0 ->
  (loop_cond l0 = true ->
   l_from (loop_update l0) = l_out (loop_update l0) - l_dist (loop_update l0)) /\
  (forall l, loop_reaches l0 l -> l_from l = l_out l - l_dist l) /\
  (forall n s,
     chunk_memset_loop cfg fuel n l0 s = chunk_memset_loop_behind cfg fuel n l0 s).
Proof.
  intros Hd Hi. split; [|split].
  - intros Hc. now apply loop_update_behind.
  - intros l Hr. induction Hr as [l | l l' Hc Hr IH]; [assumption|].
    destruct (loop_update_behind l Hd Hc Hi) as [Hd' Hi']. now apply IH.
  - intros n. revert l0 Hd Hi.
    induction n as [|n IH]; intros l0 Hd Hi s; [reflexivity|].
    cbn [chunk_memset_loop chunk_memset_loop_behind].
    destruct (loop_cond l0) eqn:Hc.
    + destruct (loop_update_behind l0 Hd Hc Hi) as [Hd' Hi'].
      rewrite <- Hi, <- Hi'. unfold bind.
      destruct (copy_8_bytes (l_out l0) (l_from l0) s); try reflexivity.
      destruct (l_len (loop_update l0) <? 8); [reflexivity|].
      now apply IH.
    + now rewrite <- Hi.
Qed.

Lemma doubling_keeps_from_behind_witness :
  0 <= l_dist (mkLocals 100 98 2 11) /\
  l_from (mkLocals 100 98 2 11) =
    l_out (mkLocals 100 98 2 11) - l_dist (mkLocals 100 98 2 11) /\
  (forall n s,
     chunk_memset_loop debug_cfg 12 n (mkLocals 100 98 2 11) s =
     chunk_memset_loop_behind debug_cfg 12 n (mkLocals 100 98 2 11) s).
Proof.
  split; [cbn; lia|]. split; [reflexivity|].
  exact (proj2 (proj2
           (doubling_keeps_from_behind debug_cfg 12 (mkLocals 100 98 2 11)
              ltac:(cbn; lia) eq_refl))).
Defined.

(** * Further properties of the routines *)

(** ** The byte-by-byte copy, in closed form *)

Lemma bytewise_copy_ahead n : forall out from m a,
  out <= from ->
  bytewise_copy n out from m a = copy_mem m out from (Z.of_nat n) a.
Proof.
  induction n as [|n IH]; intros out from m a Hle.
  - cbn [bytewise_copy]. now rewrite copy_mem_out by lia.
  - cbn [bytewise_copy]. rewrite IH by lia.
    destruct (Z_lt_le_dec a (out + 1)) as [Hl | Hl].
    + rewrite copy_mem_out by lia.
      destruct (a =? out) eqn:E.
      * apply Z.eqb_eq in E. subst a. rewrite copy_mem_in by lia. f_equal. lia.
      * apply Z.eqb_neq in E. now rewrite copy_mem_out by lia.
    + destruct (Z_lt_le_dec a (out + Z.of_nat (S n))) as [Hh | Hh].
      * rewrite !copy_mem_in by lia.
        replace (from + 1 + (a - (out + 1)) =? out) with false
          by (symmetry; apply Z.eqb_neq; lia).
        f_equal. lia.
      * rewrite !copy_mem_out by lia.
        now replace (a =? out) with false by (symmetry; apply Z.eqb_neq; lia).
Qed.

Lemma bytewise_copy_behind n out dist m a :
  is_unsigned (Z.of_nat n) -> 1 <= dist ->
  bytewise_copy n out (out - dist) m a = pattern_mem m out dist (Z.of_nat n) a.
Proof.
  intros Hu Hd. set (s := mkState m []).
  pose proof (copy_while_bytewise n (S n) out (out - dist) s
                ltac:(unfold enough; lia) Hu) as HB.
  pose proof (copy_while_target (pattern_mem m out dist (Z.of_nat n)) (S n) out
                (out - dist) (Z.of_nat n) s
                ltac:(unfold enough; lia) Hu ltac:(left; lia)) as HT.
  assert (returns (copy_while (S n) out (out - dist) (Z.of_nat n) s)
            (fun r s' => r = out + Z.of_nat n /\
                         forall a, mem s' a = pattern_mem m out dist (Z.of_nat n) a)) as HT'.
  { apply HT.
    - intros b Hb. replace (out - dist - out) with (- dist) by lia.
      apply pattern_mem_shift; lia.
    - apply (toward_pattern_start s). }
  destruct (copy_while (S n) out (out - dist) (Z.of_nat n) s) as [r s' | s' |];
    cbn [returns] in *; try contradiction.
  destruct HB as [_ HB]. destruct HT' as [_ HT']. now rewrite <- HB, HT'.
Qed.

(** A final memory that repeats the pattern is the byte-by-byte copy from
    [out - dist]. *)
Lemma cyclic_bytewise out dist len s s' :
  is_unsigned len -> 1 <= dist ->
  cyclic out dist len s s' -> within out (out + len) s s' ->
  forall a, mem s' a = bytewise_copy (Z.to_nat len) out (out - dist) (mem s) a.
Proof.
  unfold is_unsigned. intros Hu Hd Hc [_ Hf] a.
  rewrite bytewise_copy_behind by (rewrite ?Z2Nat.id; unfold is_unsigned; lia).
  rewrite Z2Nat.id by lia.
  destruct (Z_lt_le_dec a out) as [Hl | Hl].
  - rewrite pattern_mem_out by lia. apply Hf. lia.
  - destruct (Z_lt_le_dec a (out + len)) as [Hh | Hh].
    + rewrite pattern_mem_in by lia.
      replace a with (out + (a - out)) at 1 by lia. rewrite Hc by lia.
      f_equal.
    + rewrite pattern_mem_out by lia. apply Hf. lia.
Qed.

(** A final memory that holds the source bytes is the byte-by-byte copy
    whenever the ranges are disjoint or the source lies ahead. *)
Lemma copied_bytewise out from len s s' :
  is_unsigned len -> disjoint out from len \/ out <= from ->
  (forall a, mem s' a = copy_mem (mem s) out from len a) ->
  forall a, mem s' a = bytewise_copy (Z.to_nat len) out from (mem s) a.
Proof.
  unfold is_unsigned, disjoint. intros Hu Hd H a. rewrite H.
  destruct (Z_le_gt_dec out from) as [Hle | Hgt].
  - rewrite bytewise_copy_ahead by assumption. now rewrite Z2Nat.id by lia.
  - replace from with (out - (out - from)) at 2 by lia.
    rewrite bytewise_copy_behind by (rewrite ?Z2Nat.id; unfold is_unsigned; lia).
    rewrite Z2Nat.id by lia.
    destruct (Z_lt_le_dec a out) as [Hl | Hl];
      [now rewrite copy_mem_out, pattern_mem_out by lia|].
    destruct (Z_lt_le_dec a (out + len)) as [Hh | Hh];
      [|now rewrite copy_mem_out, pattern_mem_out by lia].
    rewrite copy_mem_in, pattern_mem_in by lia.
    rewrite Z.mod_small by lia. f_equal. lia.
Qed.

Lemma copied_within_copy_mem out from len s s' :
  copied out from len s s' -> within out (out + len) s s' ->
  forall a, mem s' a = copy_mem (mem s) out from len a.
Proof.
  intros Hc [_ Hf] a.
  destruct (Z_lt_le_dec a out) as [Hl | Hl];
    [rewrite copy_mem_out by lia; apply Hf; lia|].
  destruct (Z_lt_le_dec a (out + len)) as [Hh | Hh];
    [|rewrite copy_mem_out by lia; apply Hf; lia].
  rewrite copy_mem_in by lia.
  replace a with (out + (a - out)) at 1 by lia. apply Hc. lia.
Qed.

(** ** A source that lies ahead of the destination

    When [from >= out + sz] a chunked copy may overlap its source: every
    chunk reads bytes that no earlier chunk has stored to. *)

Lemma ahead_start s out delta lim : ahead (mem s) out delta lim out s.
Proof. split; [intros a Ha; lia | reflexivity]. Qed.

Lemma ahead_blit m0 out delta lim q w s :
  ahead m0 out delta lim q s ->
  out <= q -> Z.of_nat w <= delta -> lim <= q + Z.of_nat w ->
  ahead m0 out delta lim (q + Z.of_nat w)
    (stored q (load_bytes (mem s) (q + delta) w) s).
Proof.
  intros [H1 H2] Hq Hw Hlim. split; intros a Ha; unfold stored; cbn [mem].
  - destruct (Z_lt_le_dec a q) as [Hl | Hl].
    + rewrite store_load_out by lia. apply H1. lia.
    + rewrite store_load_in by lia.
      replace (q + delta + (a - q)) with (a + delta) by lia. apply H2. lia.
  - rewrite store_load_out by lia. apply H2. lia.
Qed.

Lemma ahead_copy_mem m0 out from len s :
  0 <= len -> ahead m0 out (from - out) (out + len) (out + len) s ->
  forall a, mem s a = copy_mem m0 out from len a.
Proof.
  intros Hl [H1 H2] a.
  destruct (Z_lt_le_dec a out) as [Hlo | Hlo];
    [rewrite copy_mem_out by lia; apply H2; lia|].
  destruct (Z_lt_le_dec a (out + len)) as [Hhi | Hhi];
    [|rewrite copy_mem_out by lia; apply H2; lia].
  rewrite copy_mem_in by lia. rewrite H1 by lia. f_equal. lia.
Qed.

Lemma copy_while_ahead n out from len s :
  enough n len -> is_unsigned len -> out <= from ->
  returns (copy_while n out from len s)
          (fun r s' => r = out + len /\
                       forall a, mem s' a = copy_mem (mem s) out from len a).
Proof.
  intros Hn Hu Hle. replace from with (out + (from - out)) at 1 by lia.
  eapply returns_weaken;
    [| apply (copy_while_returns (from - out) out (out + len)
                (fun p s' => ahead (mem s) out (from - out) p p s'));
       try assumption; try reflexivity; try lia ].
  - cbv beta. intros r s' [Hr Hs']. split; [assumption|].
    apply ahead_copy_mem; [unfold is_unsigned in Hu; lia | exact Hs'].
  - intros q s1 [H1 H2] Hlo Hhi. split; intros a Ha; unfold stored; cbn [mem].
    + destruct (Z_lt_le_dec a q) as [Hl | Hl].
      * rewrite store_load_out by lia. apply H1. lia.
      * rewrite store_load_in by lia.
        replace (q + (from - out) + (a - q)) with (a + (from - out)) by lia.
        apply H2. lia.
    + rewrite store_load_out by lia. apply H2. lia.
  - apply ahead_start.
Qed.

Section ChunkedAhead.
Variable cfg : config.
Variable fuel : nat.
Variable copy_chunk : Z -> Z -> M Z.
Variable sz : Z.
Hypothesis sz_pos : 0 < sz.
Hypothesis copy_chunk_eq : forall out from s,
  copy_chunk out from s =
  Done (out + sz) (stored out (load_bytes (mem s) from (Z.to_nat sz)) s).

Lemma chunk_memcpy_gen_ahead out from len s :
  is_unsigned len -> sz <= len -> enough fuel len -> out + sz <= from ->
  returns (chunk_memcpy_gen cfg fuel copy_chunk sz out from len s)
          (fun r s' => r = out + len /\
                       forall a, mem s' a = copy_mem (mem s) out from len a).
Proof.
  intros Hu Hlen Hfuel Hfar.
  set (delta := from - out).
  set (I := fun p s' => ahead (mem s) out delta (out + sz) p s').
  assert (forall q s1, I q s1 -> out <= q -> q + sz <= out + len ->
            I (q + sz) (stored q (load_bytes (mem s1) (q + delta) (Z.to_nat sz)) s1))
    as I_step.
  { intros q s1 H1 Hlo Hhi. unfold I.
    replace (q + sz) with (q + Z.of_nat (Z.to_nat sz)) by lia.
    apply ahead_blit; [exact H1 | lia | unfold delta; lia | lia]. }
  unfold chunk_memcpy_gen.
  apply returns_bind. rewrite assert_true by (apply Z.leb_le; assumption).
  cbn [returns]. apply returns_bind. rewrite copy_chunk_eq. cbn [returns].
  pose proof (Z.div_mod len sz ltac:(lia)) as Hdm.
  pose proof (Z.mod_pos_bound len sz sz_pos) as Hrem.
  assert (1 <= len / sz) as Hq by (apply Z.div_le_lower_bound; lia).
  assert (len / sz <= len) as Hq' by (apply Z.div_le_upper_bound; nia).
  pose proof (Z.div_mod (len / sz) 8 ltac:(lia)) as Hdm8.
  pose proof (Z.mod_pos_bound (len / sz) 8 ltac:(lia)) as Hby8.
  assert (0 <= len / sz / 8) as Hj by (apply Z.div_pos; lia).
  unfold is_unsigned in Hu.
  replace (wrap (len / sz - (len / sz) mod 8))
    with (8 * Z.of_nat (Z.to_nat (len / sz / 8)))
    by (rewrite wrap_small; [lia | unfold is_unsigned; lia]).
  apply returns_bind. rewrite memcpy_switch_steps by assumption.
  replace from with (out + delta) by (unfold delta; lia).
  replace (out + delta + len mod sz) with (out + len mod sz + delta) by lia.
  apply (steps_then_returns copy_chunk sz sz_pos copy_chunk_eq delta out (out + len) I I_step).
  - (* the prime copy leaves the first [rem] bytes in place *)
    unfold I. split; intros a Ha; unfold stored; cbn [mem].
    + rewrite store_load_in by lia. f_equal. lia.
    + rewrite store_load_out by lia. reflexivity.
  - lia.
  - rewrite Z2Nat.id by lia. nia.
  - intros s' Hs'. cbn [ret returns]. apply returns_bind.
    eapply returns_weaken;
      [| apply (memcpy_loop_returns copy_chunk sz sz_pos copy_chunk_eq delta out (out + len) I I_step)].
    + cbv beta. intros acc s'' [Ha Hs'']. cbn [ret returns].
      split; [lia|].
      replace (out + delta) with from by (unfold delta; lia).
      apply ahead_copy_mem; [lia|].
      destruct Hs'' as [H1 H2]. split; [exact H1|].
      intros a Ha'. apply H2. lia.
    + unfold enough in Hfuel. lia.
    + lia.
    + exact Hs'.
    + lia.
    + rewrite !Z2Nat.id by lia. nia.
Qed.

(** At least one chunk apart, in either direction, the chunked copy is the
    byte-by-byte copy. *)
Lemma chunk_memcpy_gen_bytewise out from len s :
  is_unsigned len -> sz <= len -> enough fuel len ->
  sz <= Z.abs (from - out) ->
  returns (chunk_memcpy_gen cfg fuel copy_chunk sz out from len s)
          (fun r s' => r = out + len /\
                       forall a, mem s' a =
                                 bytewise_copy (Z.to_nat len) out from (mem s) a).
Proof.
  intros Hu Hlen Hf Hfar.
  destruct (Z_le_gt_dec out from) as [Hle | Hgt].
  - eapply returns_weaken; [| apply chunk_memcpy_gen_ahead; (assumption || lia)].
    cbv beta. intros r s' [Hr Hs']. split; [assumption|].
    apply copied_bytewise; [assumption | right; assumption | assumption].
  - pose proof (chunk_memcpy_gen_cyclic cfg fuel copy_chunk sz sz_pos copy_chunk_eq
                  out (out - from) len s Hu Hlen Hf ltac:(lia)) as HC.
    pose proof (chunk_memcpy_gen_within cfg fuel copy_chunk sz sz_pos copy_chunk_eq
                  out (out - (out - from)) len s Hu Hlen Hf) as HW.
    replace from with (out - (out - from)) by lia.
    pose proof (returns_and _ _ _ HC HW) as HB.
    eapply returns_weaken; [| exact HB].
    cbv beta. intros r s' [[Hr Hcy] [_ Hw]]. split; [assumption|].
    apply cyclic_bytewise; (assumption || lia).
Qed.
End ChunkedAhead.

(** ** The fixed-width copies *)

Ltac moves_case :=
  unfold moves; cbn;
  split; [lia | split; [| within_chain ]];
  let i := fresh "i" in let Hi := fresh "Hi" in
  intros i Hi;
  assert (i = 0 \/ i = 1 \/ i = 2 \/ i = 3 \/ i = 4 \/ i = 5 \/ i = 6 \/ i = 7 \/
          i = 8 \/ i = 9 \/ i = 10 \/ i = 11 \/ i = 12 \/ i = 13 \/ i = 14 \/
          i = 15) as C by lia;
  repeat (destruct C as [C | C]); subst i; try lia;
  mem_chain; f_equal; lia.

(** X1.  The single-unit copies load the whole unit before they store it:
    [copy_1_bytes], [copy_2_bytes], [copy_4_bytes], [copy_8_bytes] and
    [copy_16_bytes] leave the original source bytes at [out] whatever the
    overlap between source and destination, return [out + N] and store
    only in [out, out + N). *)
Theorem single_unit_copies_any_overlap out from s :
  moves 1 out from s (copy_1_bytes out from s) /\
  moves 2 out from s (copy_2_bytes out from s) /\
  moves 4 out from s (copy_4_bytes out from s) /\
  moves 8 out from s (copy_8_bytes out from s) /\
  moves 16 out from s (copy_16_bytes out from s).
Proof.
  split; [|split; [|split; [|split]]]; moves_case.
Qed.

(** X2.  The composite copies, built from two or three single units, copy
    exactly [N] bytes between disjoint ranges, return [out + N] and store
    only in [out, out + N). *)
Theorem composite_copies_disjoint out from s :
  (disjoint out from 3 -> moves 3 out from s (copy_3_bytes out from s)) /\
  (disjoint out from 5 -> moves 5 out from s (copy_5_bytes out from s)) /\
  (disjoint out from 6 -> moves 6 out from s (copy_6_bytes out from s)) /\
  (disjoint out from 7 -> moves 7 out from s (copy_7_bytes out from s)).
Proof.
  unfold disjoint.
  split; [|split; [|split]]; intros Hd; moves_case.
Qed.

Lemma composite_copies_disjoint_witness :
  disjoint 100 96 3 /\ moves 3 100 96 st0 (copy_3_bytes 100 96 st0).
Proof.
  split; [left; lia|].
  exact (proj1 (composite_copies_disjoint 100 96 st0) ltac:(left; lia)).
Defined.

(** ** [copy_bytes] and [set_bytes] at the edges of their domains *)

(** X3.  For [len] in [0, 8) and disjoint ranges, [copy_bytes] returns
    [out + len], leaves memory as the plain copy of [len] bytes does and
    stores only in [out, out + len), with or without [UNALIGNED_OK]. *)
Theorem copy_bytes_short_copy cfg fuel out from len s :
  0 <= len < 8 -> enough fuel len -> disjoint out from len ->
  returns (copy_bytes cfg fuel out from len s)
    (fun r s' => r = out + len /\
                 (forall a, mem s' a = copy_mem (mem s) out from len a) /\
                 within out (out + len) s s').
Proof.
  intros Hl Hf Hd.
  pose proof (returns_and _ _ _
                (copy_bytes_copied cfg fuel out from len s Hl Hf Hd)
                (copy_bytes_within cfg fuel out from len s Hl Hf)) as H.
  eapply returns_weaken; [| exact H].
  cbv beta. intros r s' [[Hr Hc] [_ Hw]].
  split; [assumption|]. split; [|assumption].
  now apply copied_within_copy_mem.
Qed.

Lemma copy_bytes_short_copy_witness :
  0 <= 5 < 8 /\ enough 6 5 /\ disjoint 100 95 5 /\
  returns (copy_bytes portable_cfg 6 100 95 5 st0)
    (fun r s' => r = 100 + 5 /\
                 (forall a, mem s' a = copy_mem (mem st0) 100 95 5 a) /\
                 within 100 (100 + 5) st0 s').
Proof.
  split; [lia|]. split; [unfold enough; lia|]. split; [left; lia|].
  exact (copy_bytes_short_copy portable_cfg 6 100 95 5 st0
           ltac:(lia) ltac:(unfold enough; lia) ltac:(left; lia)).
Defined.

Lemma copy_bytes_default cfg fuel out from len s :
  8 <= len -> UNALIGNED_OK cfg = true ->
  copy_bytes cfg fuel out from len s =
  (assert cfg (len <? 8) ;; assert cfg false ;; ret out) s.
Proof.
  intros Hl HU. unfold copy_bytes. rewrite HU. cbn [negb].
  destruct len as [|p|p]; try lia.
  destruct p as [p|p|]; try lia;
    destruct p as [p|p|]; try lia;
    destruct p as [p|p|]; try lia; reflexivity.
Qed.

(** X4.  [copy_bytes] on [len >= 8]: with assertions it stops at
    [assert(len < 8)] before any store; without them the [UNALIGNED_OK]
    build runs into [default:] and returns [out] with nothing copied,
    while the portable build copies all [len] bytes one by one. *)
Theorem copy_bytes_past_domain cfg fuel out from len s :
  8 <= len -> is_unsigned len ->
  (NDEBUG cfg = false -> copy_bytes cfg fuel out from len s = Abort s) /\
  (NDEBUG cfg = true -> UNALIGNED_OK cfg = true ->
   copy_bytes cfg fuel out from len s = Done out s) /\
  (NDEBUG cfg = true -> UNALIGNED_OK cfg = false -> enough fuel len ->
   returns (copy_bytes cfg fuel out from len s)
     (fun r s' => r = out + len /\
                  forall a, mem s' a =
                            bytewise_copy (Z.to_nat len) out from (mem s) a)).
Proof.
  intros Hl Hu.
  assert ((len <? 8) = false) as E by (apply Z.ltb_ge; lia).
  split; [|split].
  - intros HN. unfold copy_bytes, bind. rewrite E. now rewrite assert_fails.
  - intros HN HU. rewrite copy_bytes_default by assumption.
    unfold bind. now rewrite !assert_ndebug by assumption.
  - intros HN HU Hf. unfold copy_bytes, bind.
    rewrite assert_ndebug by assumption. rewrite HU. cbn [negb].
    unfold is_unsigned in Hu.
    pose proof (copy_while_bytewise (Z.to_nat len) fuel out from s) as H.
    rewrite Z2Nat.id in H by lia. apply H; [assumption | exact Hu].
Qed.

Lemma copy_bytes_past_domain_witness :
  8 <= 9 /\ is_unsigned 9 /\
  copy_bytes debug_cfg 10 100 50 9 st0 = Abort st0 /\
  copy_bytes release_cfg 10 100 50 9 st0 = Done 100 st0.
Proof.
  split; [lia|]. split; [unfold is_unsigned; lia|]. split.
  - exact (proj1 (copy_bytes_past_domain debug_cfg 10 100 50 9 st0
                    ltac:(lia) ltac:(unfold is_unsigned; lia)) eq_refl).
  - exact (proj1 (proj2 (copy_bytes_past_domain release_cfg 10 100 50 9 st0
                    ltac:(lia) ltac:(unfold is_unsigned; lia))) eq_refl eq_refl).
Defined.

(** X5.  [set_bytes] with [dist == 0] and [0 < len < 8]: the switch on
    [dist] has no [case 0] and no [default], so the [UNALIGNED_OK] build
    stores nothing and returns [out], and no assertion fires; the portable
    build copies [len] bytes from [from] and returns [out + len]. *)
Theorem set_bytes_zero_dist cfg fuel out from len s :
  0 < len < 8 ->
  (UNALIGNED_OK cfg = true ->
   set_bytes cfg fuel out from 0 len s = Done out s) /\
  (UNALIGNED_OK cfg = false -> enough fuel len ->
   returns (set_bytes cfg fuel out from 0 len s)
     (fun r s' => r = out + len /\
                  forall a, mem s' a =
                            bytewise_copy (Z.to_nat len) out from (mem s) a)).
Proof.
  intros Hl. split.
  - intros HU. unfold set_bytes, bind.
    rewrite assert_true by (apply Z.ltb_lt; lia). rewrite HU. cbn [negb].
    now replace (len <=? 0) with false by (symmetry; apply Z.leb_gt; lia).
  - intros HU Hf. rewrite set_bytes_slow by (assumption || lia).
    pose proof (copy_while_bytewise (Z.to_nat len) fuel out from s) as H.
    rewrite Z2Nat.id in H by lia.
    apply H; [assumption | unfold is_unsigned; lia].
Qed.

Lemma set_bytes_zero_dist_witness :
  0 < 5 < 8 /\ set_bytes debug_cfg 6 100 50 0 5 st0 = Done 100 st0.
Proof.
  split; [lia|].
  exact (proj1 (set_bytes_zero_dist debug_cfg 6 100 50 5 st0 ltac:(lia)) eq_refl).
Defined.

(** ** The bulk copier away from its claims *)

(** X6.  With source and destination at least one chunk apart, in either
    direction and overlapping or not, [chunk_memcpy] ([len >= 8], 8 bytes
    apart) and [chunk_memcpy_16] ([len >= 16], 16 bytes apart) have the
    byte-by-byte semantics their comments announce: they return
    [out + len] and leave memory as the left-to-right byte copy does. *)
Theorem chunk_memcpy_byte_semantics cfg fuel out from len s :
  is_unsigned len -> enough fuel len ->
  (8 <= len -> 8 <= Z.abs (from - out) ->
   returns (chunk_memcpy cfg fuel out from len s)
     (fun r s' => r = out + len /\
                  forall a, mem s' a =
                            bytewise_copy (Z.to_nat len) out from (mem s) a)) /\
  (16 <= len -> 16 <= Z.abs (from - out) ->
   returns (chunk_memcpy_16 cfg fuel out from len s)
     (fun r s' => r = out + len /\
                  forall a, mem s' a =
                            bytewise_copy (Z.to_nat len) out from (mem s) a)).
Proof.
  intros Hu Hf. split; intros Hl Hd.
  - apply chunk_memcpy_gen_bytewise;
      [lia | exact copy_8_bytes_eq | assumption | assumption | assumption | assumption].
  - apply chunk_memcpy_gen_bytewise;
      [lia | exact copy_16_bytes_eq | assumption | assumption | assumption | assumption].
Qed.

Lemma chunk_memcpy_byte_semantics_witness :
  is_unsigned 40 /\ enough 41 40 /\ 8 <= 40 /\ 8 <= Z.abs (110 - 100) /\
  returns (chunk_memcpy debug_cfg 41 100 110 40 st0)
    (fun r s' => r = 100 + 40 /\
                 forall a, mem s' a =
                           bytewise_copy (Z.to_nat 40) 100 110 (mem st0) a).
Proof.
  split; [unfold is_unsigned; lia|]. split; [unfold enough; lia|].
  split; [lia|]. split; [cbn; lia|].
  exact (proj1 (chunk_memcpy_byte_semantics debug_cfg 41 100 110 40 st0
                  ltac:(unfold is_unsigned; lia) ltac:(unfold enough; lia))
           ltac:(lia) ltac:(cbn; lia)).
Defined.

(** X7.  [chunk_memcpy] below its length domain ([len < 8]): with
    assertions it stops at [assert(len >= sz)] before any store; without
    them the priming copy stores the eight bytes [out .. out+7], that is
    [8 - len] bytes past the run, and the call returns [out + len]. *)
Theorem chunk_memcpy_short_len cfg fuel out from len s :
  0 <= len < 8 -> (1 <= fuel)%nat ->
  (NDEBUG cfg = false -> chunk_memcpy cfg fuel out from len s = Abort s) /\
  (NDEBUG cfg = true ->
   chunk_memcpy cfg fuel out from len s =
   Done (out + len) (stored out (load_bytes (mem s) from 8) s)).
Proof.
  intros Hl Hf. unfold chunk_memcpy, chunk_memcpy_gen.
  assert ((8 <=? len) = false) as E by (apply Z.leb_gt; lia).
  split; intros HN.
  - unfold bind. rewrite E. now rewrite assert_fails.
  - unfold bind at 1. rewrite assert_ndebug by assumption.
    unfold bind at 1. rewrite copy_8_bytes_eq.
    rewrite (Z.mod_small len 8) by lia. rewrite (Z.div_small len 8) by lia.
    destruct fuel as [|n]; [lia|]. reflexivity.
Qed.

Lemma chunk_memcpy_short_len_witness :
  0 <= 3 < 8 /\ (1 <= 2)%nat /\
  chunk_memcpy release_cfg 2 100 50 3 st0 =
  Done (100 + 3) (stored 100 (load_bytes (mem st0) 50 8) st0).
Proof.
  split; [lia|]. split; [lia|].
  exact (proj2 (chunk_memcpy_short_len release_cfg 2 100 50 3 st0
                  ltac:(lia) ltac:(lia)) eq_refl).
Defined.

(** ** [fast_copy] and [safe_copy] *)

Lemma copy_bytes_bytewise cfg fuel out from len s :
  0 <= len < 8 -> enough fuel len -> disjoint out from len ->
  returns (copy_bytes cfg fuel out from len s)
    (fun r s' => r = out + len /\
                 forall a, mem s' a =
                           bytewise_copy (Z.to_nat len) out from (mem s) a).
Proof.
  intros Hl Hf Hd.
  pose proof (returns_and _ _ _
                (copy_bytes_copied cfg fuel out from len s Hl Hf Hd)
                (copy_bytes_within cfg fuel out from len s Hl Hf)) as H.
  eapply returns_weaken; [| exact H].
  cbv beta. intros r s' [[Hr Hc] [_ Hw]]. split; [assumption|].
  apply copied_bytewise; [unfold is_unsigned; lia | left; assumption |].
  now apply copied_within_copy_mem.
Qed.

Lemma fast_copy_bytewise cfg fuel out from len s :
  is_unsigned len -> enough fuel len ->
  disjoint out from len \/ chunk_width cfg <= Z.abs (from - out) ->
  returns (fast_copy cfg fuel out from len s)
    (fun r s' => r = out + len /\
                 forall a, mem s' a =
                           bytewise_copy (Z.to_nat len) out from (mem s) a).
Proof.
  unfold is_unsigned, disjoint, chunk_width. intros Hu Hf Hd. unfold fast_copy.
  destruct (len <? 8) eqn:E8.
  - apply Z.ltb_lt in E8. apply copy_bytes_bytewise; [lia | assumption |].
    unfold disjoint. destruct (SSE2 cfg); lia.
  - apply Z.ltb_ge in E8. destruct (SSE2 cfg).
    + destruct (len <? 16) eqn:E16.
      * apply Z.ltb_lt in E16.
        apply chunk_memcpy_gen_bytewise;
          [lia | exact copy_8_bytes_eq | unfold is_unsigned; lia | lia
          | assumption | lia].
      * apply Z.ltb_ge in E16.
        apply chunk_memcpy_gen_bytewise;
          [lia | exact copy_16_bytes_eq | unfold is_unsigned; lia | lia
          | assumption | lia].
    + apply chunk_memcpy_gen_bytewise;
        [lia | exact copy_8_bytes_eq | unfold is_unsigned; lia | lia
        | assumption | lia].
Qed.

Lemma safe_copy_bytewise cfg fuel out from len s :
  is_unsigned len -> enough fuel len ->
  returns (safe_copy cfg fuel out from len s)
    (fun r s' => r = out + len /\
                 forall a, mem s' a =
                           bytewise_copy (Z.to_nat len) out from (mem s) a).
Proof.
  intros Hu Hf. unfold safe_copy.
  destruct (Z.abs (from - out) <? chunk_width cfg) eqn:E.
  - rewrite copy_for_while. unfold is_unsigned in Hu.
    pose proof (copy_while_bytewise (Z.to_nat len) fuel out from s) as H.
    rewrite Z2Nat.id in H by lia. apply H; [assumption | exact Hu].
  - apply Z.ltb_ge in E. apply fast_copy_bytewise; [assumption | assumption |].
    right. assumption.
Qed.

(** X8.  Whenever source and destination are disjoint, or lie at least one
    chunk width apart (overlapping or not, in either direction),
    [fast_copy] returns [out + len] and leaves memory as the left-to-right
    byte copy does, for every [len] and in every build. *)
Theorem fast_copy_byte_semantics cfg fuel out from len s :
  is_unsigned len -> enough fuel len ->
  disjoint out from len \/ chunk_width cfg <= Z.abs (from - out) ->
  returns (fast_copy cfg fuel out from len s)
    (fun r s' => r = out + len /\
                 (forall a, mem s' a =
                            bytewise_copy (Z.to_nat len) out from (mem s) a) /\
                 within out (out + len) s s').
Proof.
  intros Hu Hf Hd.
  pose proof (returns_and _ _ _
                (fast_copy_bytewise cfg fuel out from len s Hu Hf Hd)
                (fast_copy_within cfg fuel out from len s Hu Hf)) as H.
  eapply returns_weaken; [| exact H].
  cbv beta. intros r s' [[Hr Hm] [_ Hw]]. auto.
Qed.

Lemma fast_copy_byte_semantics_witness :
  is_unsigned 40 /\ enough 41 40 /\
  (disjoint 100 84 40 \/ chunk_width release_cfg <= Z.abs (84 - 100)) /\
  returns (fast_copy release_cfg 41 100 84 40 st0)
    (fun r s' => r = 100 + 40 /\
                 (forall a, mem s' a =
                            bytewise_copy (Z.to_nat 40) 100 84 (mem st0) a) /\
                 within 100 (100 + 40) st0 s').
Proof.
  split; [unfold is_unsigned; lia|]. split; [unfold enough; lia|].
  split; [right; cbn; lia|].
  exact (fast_copy_byte_semantics release_cfg 41 100 84 40 st0
           ltac:(unfold is_unsigned; lia) ltac:(unfold enough; lia)
           ltac:(right; cbn; lia)).
Defined.

(** X9.  [safe_copy] always has byte-by-byte semantics: for every [out],
    [from] and [len], whatever the overlap and the build, it returns
    [out + len] and leaves memory exactly as the left-to-right byte copy
    does. *)
Theorem safe_copy_byte_semantics cfg fuel out from len s :
  is_unsigned len -> enough fuel len ->
  returns (safe_copy cfg fuel out from len s)
    (fun r s' => r = out + len /\
                 (forall a, mem s' a =
                            bytewise_copy (Z.to_nat len) out from (mem s) a) /\
                 within out (out + len) s s').
Proof.
  intros Hu Hf.
  pose proof (returns_and _ _ _
                (safe_copy_bytewise cfg fuel out from len s Hu Hf)
                (safe_copy_within cfg fuel out from len s Hu Hf)) as H.
  eapply returns_weaken; [| exact H].
  cbv beta. intros r s' [[Hr Hm] [_ Hw]]. auto.
Qed.

Lemma safe_copy_byte_semantics_witness :
  is_unsigned 40 /\ enough 41 40 /\
  returns (safe_copy release_cfg 41 100 80 40 st0)
    (fun r s' => r = 100 + 40 /\
                 (forall a, mem s' a =
                            bytewise_copy (Z.to_nat 40) 100 80 (mem st0) a) /\
                 within 100 (100 + 40) st0 s').
Proof.
  split; [unfold is_unsigned; lia|]. split; [unfold enough; lia|].
  exact (safe_copy_byte_semantics release_cfg 41 100 80 40 st0
           ltac:(unfold is_unsigned; lia) ltac:(unfold enough; lia)).
Defined.

(** ** [chunk_copy] on back-references *)

Lemma chunk_copy_backref cfg fuel out dist len s :
  is_unsigned len -> is_unsigned dist -> enough fuel len ->
  1 <= dist -> len < 8 \/ 1 < dist \/ NDEBUG cfg = true ->
  returns (chunk_copy cfg fuel out (out - dist) dist len s)
    (fun r s' => r = out + len /\
                 forall a, mem s' a =
                           bytewise_copy (Z.to_nat len) out (out - dist) (mem s) a).
Proof.
  intros Hu Hd Hf H1 Hok.
  pose proof (chunk_copy_cyclic cfg fuel out dist len s Hu Hd Hf H1 Hok) as HC.
  pose proof (chunk_copy_within cfg fuel out (out - dist) dist len s Hu Hd Hf) as HW.
  destruct (chunk_copy cfg fuel out (out - dist) dist len s) as [r s' | s' |];
    cbn [returns halts] in *; try contradiction.
  destruct HC as [Hr Hcy]. split; [assumption|].
  now apply cyclic_bytewise.
Qed.

(** X10.  A back-reference copy has byte-by-byte semantics: for every
    [dist >= 1] and every [len], [chunk_copy(out, out - dist, dist, len)]
    returns [out + len] and leaves memory as the left-to-right byte copy
    from [out - dist] does, whichever routine it dispatches to -- except
    that with [dist == 1] and [len >= 8] a build with assertions stops in
    [byte_memset]. *)
Theorem chunk_copy_byte_semantics cfg fuel out dist len s :
  is_unsigned len -> is_unsigned dist -> enough fuel len ->
  1 <= dist -> len < 8 \/ 1 < dist \/ NDEBUG cfg = true ->
  returns (chunk_copy cfg fuel out (out - dist) dist len s)
    (fun r s' => r = out + len /\
                 (forall a, mem s' a =
                            bytewise_copy (Z.to_nat len) out (out - dist)
                              (mem s) a) /\
                 within out (out + len) s s').
Proof.
  intros Hu Hd Hf H1 Hok.
  pose proof (chunk_copy_backref cfg fuel out dist len s Hu Hd Hf H1 Hok) as HB.
  pose proof (chunk_copy_within cfg fuel out (out - dist) dist len s Hu Hd Hf) as HW.
  destruct (chunk_copy cfg fuel out (out - dist) dist len s) as [r s' | s' |];
    cbn [returns halts] in *; try contradiction.
  destruct HB as [Hr Hm]. auto.
Qed.

Lemma chunk_copy_byte_semantics_witness :
  is_unsigned 70 /\ is_unsigned 3 /\ enough 71 70 /\ 1 <= 3 /\
  (70 < 8 \/ 1 < 3 \/ NDEBUG debug_cfg = true) /\
  returns (chunk_copy debug_cfg 71 100 (100 - 3) 3 70 st0)
    (fun r s' => r = 100 + 70 /\
                 (forall a, mem s' a =
                            bytewise_copy (Z.to_nat 70) 100 (100 - 3)
                              (mem st0) a) /\
                 within 100 (100 + 70) st0 s').
Proof.
  split; [unfold is_unsigned; lia|]. split; [unfold is_unsigned; lia|].
  split; [unfold enough; lia|]. split; [lia|]. split; [right; left; lia|].
  exact (chunk_copy_byte_semantics debug_cfg 71 100 3 70 st0
           ltac:(unfold is_unsigned; lia) ltac:(unfold is_unsigned; lia)
           ltac:(unfold enough; lia) ltac:(lia) ltac:(right; left; lia)).
Defined.

Lemma bytewise_copy_app n1 : forall n2 out from m a,
  bytewise_copy (n1 + n2) out from m a =
  bytewise_copy n2 (out + Z.of_nat n1) (from + Z.of_nat n1)
    (bytewise_copy n1 out from m) a.
Proof.
  induction n1 as [|n1 IH]; intros n2 out from m a.
  - cbn [Nat.add bytewise_copy].
    replace (out + Z.of_nat 0) with out by lia.
    now replace (from + Z.of_nat 0) with from by lia.
  - cbn [Nat.add bytewise_copy]. rewrite IH.
    replace (out + 1 + Z.of_nat n1) with (out + Z.of_nat (S n1)) by lia.
    now replace (from + 1 + Z.of_nat n1) with (from + Z.of_nat (S n1)) by lia.
Qed.

(** X11.  A back-reference copy may be split anywhere: copying [n1] bytes
    and then, from the returned cursor and at the same distance, [n2] more
    leaves the memory that one copy of [n1 + n2] bytes leaves, and returns
    the same cursor [out + n1 + n2]. *)
Theorem chunk_copy_split cfg fuel out dist n1 n2 s :
  0 <= n1 -> 0 <= n2 -> is_unsigned (n1 + n2) -> is_unsigned dist ->
  enough fuel (n1 + n2) ->
  1 < dist \/ (dist = 1 /\ NDEBUG cfg = true) ->
  returns
    ((r <- chunk_copy cfg fuel out (out - dist) dist n1 ;;
      chunk_copy cfg fuel r (r - dist) dist n2) s)
    (fun r2 s2 =>
       returns (chunk_copy cfg fuel out (out - dist) dist (n1 + n2) s)
         (fun r s' => r2 = r /\ r = out + (n1 + n2) /\
                      forall a, mem s2 a = mem s' a)).
Proof.
  unfold is_unsigned, enough. intros H1 H2 Hu Hd Hf Hok.
  assert (1 <= dist) as Hd1 by lia.
  assert (forall n, n < 8 \/ 1 < dist \/ NDEBUG cfg = true) as Hok'
    by (intros n; destruct Hok as [Hok | [_ Hok]]; auto).
  apply returns_bind.
  eapply returns_weaken;
    [| apply (chunk_copy_backref cfg fuel out dist n1 s);
       unfold is_unsigned, enough; (lia || auto) ].
  cbv beta. intros r1 s1 [Hr1 Hm1]. subst r1.
  eapply returns_weaken;
    [| apply (chunk_copy_backref cfg fuel (out + n1) dist n2 s1);
       unfold is_unsigned, enough; (lia || auto) ].
  cbv beta. intros r2 s2 [Hr2 Hm2].
  eapply returns_weaken;
    [| apply (chunk_copy_backref cfg fuel out dist (n1 + n2) s);
       unfold is_unsigned, enough; (lia || auto) ].
  cbv beta. intros r s' [Hr Hm]. split; [lia|]. split; [assumption|].
  intros a. rewrite Hm2, Hm.
  rewrite Z2Nat.inj_add by lia. rewrite bytewise_copy_app.
  rewrite !Z2Nat.id by lia.
  replace (out - dist + n1) with (out + n1 - dist) by lia.
  apply bytewise_copy_ext. intros b. apply Hm1.
Qed.

Lemma chunk_copy_split_witness :
  0 <= 5 /\ 0 <= 20 /\ is_unsigned (5 + 20) /\ is_unsigned 3 /\
  enough 26 (5 + 20) /\ (1 < 3 \/ (3 = 1 /\ NDEBUG debug_cfg = true)) /\
  returns
    ((r <- chunk_copy debug_cfg 26 100 (100 - 3) 3 5 ;;
      chunk_copy debug_cfg 26 r (r - 3) 3 20) st0)
    (fun r2 s2 =>
       returns (chunk_copy debug_cfg 26 100 (100 - 3) 3 (5 + 20) st0)
         (fun r s' => r2 = r /\ r = 100 + (5 + 20) /\
                      forall a, mem s2 a = mem s' a)).
Proof.
  split; [lia|]. split; [lia|]. split; [unfold is_unsigned; lia|].
  split; [unfold is_unsigned; lia|]. split; [unfold enough; lia|].
  split; [left; lia|].
  exact (chunk_copy_split debug_cfg 26 100 3 5 20 st0
           ltac:(lia) ltac:(lia) ltac:(unfold is_unsigned; lia)
           ltac:(unfold is_unsigned; lia) ltac:(unfold enough; lia)
           ltac:(left; lia)).
Defined.

(** ** What the dispatcher guards against, and what it always returns *)

Lemma chunk_memset_loop_dist0 cfg fuel n : forall out from len s,
  8 <= len -> is_unsigned len ->
  chunk_memset_loop cfg fuel n (mkLocals out from 0 len) s = Timeout.
Proof.
  induction n as [|n IH]; intros out from len s Hl Hu; [reflexivity|].
  cbn [chunk_memset_loop]. unfold loop_cond, loop_update.
  cbn [l_out l_from l_dist l_len].
  replace (0 <? len) with true by (symmetry; apply Z.ltb_lt; lia).
  cbn [andb Z.ltb Z.compare]. unfold bind. rewrite copy_8_bytes_eq.
  replace (wrap (len - 0)) with len
    by (rewrite wrap_small; [lia | unfold is_unsigned in *; lia]).
  replace (len <? 8) with false by (symmetry; apply Z.ltb_ge; lia).
  change (wrap (0 + 0)) with 0. now apply IH.
Qed.

(** X12.  With [dist == 0] and [len >= 8] the doubling loop of
    [chunk_memset] advances nothing ([out += 0], [len -= 0], [dist += 0]):
    the call uses up any fuel and never returns, in every build.
    [chunk_copy] sends [dist == 0] to [chunk_memcpy] instead. *)
Theorem chunk_memset_zero_dist_spins cfg fuel out from len s :
  8 <= len -> is_unsigned len ->
  chunk_memset cfg fuel out from 0 len s = Timeout.
Proof.
  intros Hl Hu. unfold chunk_memset.
  replace (len <=? 0) with false by (symmetry; apply Z.leb_gt; lia).
  unfold bind. rewrite assert_true by (apply Z.leb_le; assumption).
  now apply chunk_memset_loop_dist0.
Qed.

Lemma chunk_memset_zero_dist_spins_witness :
  8 <= 20 /\ is_unsigned 20 /\
  chunk_memset debug_cfg 1000 100 50 0 20 st0 = Timeout.
Proof.
  split; [lia|]. split; [unfold is_unsigned; lia|].
  exact (chunk_memset_zero_dist_spins debug_cfg 1000 100 50 20 st0
           ltac:(lia) ltac:(unfold is_unsigned; lia)).
Defined.

(** X13.  A copy of nothing is a no-op: with [len == 0], [chunk_copy]
    (for any [dist]), [fast_copy] and [safe_copy] return [out] and leave
    the state, stores included, as it was. *)
Theorem zero_length_is_noop cfg fuel out from dist s :
  (1 <= fuel)%nat -> 0 <= dist ->
  chunk_copy cfg fuel out from dist 0 s = Done out s /\
  fast_copy cfg fuel out from 0 s = Done out s /\
  safe_copy cfg fuel out from 0 s = Done out s.
Proof.
  intros Hf Hd. destruct fuel as [|n]; [lia|].
  assert (copy_bytes cfg (S n) out from 0 s = Done out s) as Hcb.
  { unfold copy_bytes, bind. rewrite assert_true by reflexivity.
    destruct (UNALIGNED_OK cfg); reflexivity. }
  split; [|split].
  - unfold chunk_copy. cbn [Z.ltb Z.compare].
    destruct (0 <? dist); [|exact Hcb].
    rewrite set_bytes_copy_bytes by lia. exact Hcb.
  - unfold fast_copy. cbn [Z.ltb Z.compare]. exact Hcb.
  - unfold safe_copy. destruct (Z.abs (from - out) <? chunk_width cfg).
    + reflexivity.
    + unfold fast_copy. cbn [Z.ltb Z.compare]. exact Hcb.
Qed.

Lemma zero_length_is_noop_witness :
  (1 <= 1)%nat /\ 0 <= 3 /\
  chunk_copy portable_cfg 1 100 97 3 0 st0 = Done 100 st0.
Proof.
  split; [lia|]. split; [lia|].
  exact (proj1 (zero_length_is_noop portable_cfg 1 100 97 3 st0
                  ltac:(lia) ltac:(lia))).
Defined.

(** X14.  Without assertions [byte_memset] does what its comment says for
    every [len >= 8]: it returns [out + len], leaves the byte found at
    [out - 1] in each of [out[0..len-1]] and stores only in
    [out, out + len). *)
Theorem byte_memset_release_fill cfg fuel out len s :
  NDEBUG cfg = true -> is_unsigned len -> 8 <= len -> enough fuel len ->
  returns (byte_memset cfg fuel out len s)
    (fun r s' => r = out + len /\
                 (forall i, 0 <= i < len -> mem s' (out + i) = mem s (out - 1)) /\
                 within out (out + len) s s').
Proof.
  intros HN Hu Hl Hf.
  pose proof (byte_memset_fill cfg fuel out len s HN Hu Hl Hf) as HF.
  pose proof (byte_memset_within cfg fuel out len s Hu Hl Hf) as HW.
  destruct (byte_memset cfg fuel out len s) as [r s' | s' |];
    cbn [returns halts] in *; try contradiction.
  destruct HF as [Hr Hc]. split; [assumption|]. split; [|assumption].
  intros i Hi. rewrite Hc by assumption. rewrite Z.mod_1_r. f_equal. lia.
Qed.

Lemma byte_memset_release_fill_witness :
  NDEBUG release_cfg = true /\ is_unsigned 100 /\ 8 <= 100 /\ enough 101 100 /\
  returns (byte_memset release_cfg 101 100 100 st0)
    (fun r s' => r = 100 + 100 /\
                 (forall i, 0 <= i < 100 -> mem s' (100 + i) = mem st0 (100 - 1)) /\
                 within 100 (100 + 100) st0 s').
Proof.
  split; [reflexivity|]. split; [unfold is_unsigned; lia|]. split; [lia|].
  split; [unfold enough; lia|].
  exact (byte_memset_release_fill release_cfg 101 100 100 st0 eq_refl
           ltac:(unfold is_unsigned; lia) ltac:(lia) ltac:(unfold enough; lia)).
Defined.

Lemma rounds_double dist :
  1 <= dist < 8 -> S (rounds (2 * dist)) = rounds dist.
Proof.
  intros H. unfold rounds.
  assert (dist = 1 \/ dist = 2 \/ dist = 3 \/ dist = 4 \/ dist = 5 \/
          dist = 6 \/ dist = 7) as C by lia.
  repeat (destruct C as [C | C]); subst dist; reflexivity.
Qed.

Lemma chunk_memset_loop_rounds cfg fuel : forall n l s,
  1 <= l_dist l -> 8 <= l_len l -> is_unsigned (l_len l) ->
  enough fuel (l_len l) -> (rounds (l_dist l) < n)%nat ->
  returns (chunk_memset_loop cfg fuel n l s)
          (fun r s' => r = l_out l + l_len l /\
                       within (l_out l) (l_out l + l_len l) s s').
Proof.
  induction n as [|n IH]; intros l s Hd Hlen Hu Hf Hn; [lia|].
  cbn [chunk_memset_loop]. destruct (loop_cond l) eqn:Hc.
  - rewrite loop_update_small by (assumption || lia).
    unfold loop_cond in Hc. apply andb_prop in Hc. destruct Hc as [H1 H2].
    apply Z.ltb_lt in H1. apply Z.ltb_lt in H2.
    pose proof (rounds_double (l_dist l) ltac:(lia)) as Hr.
    unfold is_unsigned, enough in *.
    apply returns_bind. rewrite copy_8_bytes_eq.
    cbn [returns l_out l_from l_dist l_len].
    assert (within (l_out l) (l_out l + l_len l) s
              (stored (l_out l) (load_bytes (mem s) (l_from l) (Z.to_nat 8)) s))
      as W1.
    { apply within_stored. lia. rewrite load_bytes_length. lia. }
    destruct (l_len l - l_dist l <? 8) eqn:E.
    + apply Z.ltb_lt in E.
      eapply returns_weaken; [| apply set_bytes_within; unfold enough; lia].
      cbv beta. intros r s' [Hr' Hs']. split; [lia|].
      eapply within_trans; [exact W1|].
      eapply within_mono; [| | exact Hs']; lia.
    + apply Z.ltb_ge in E.
      eapply returns_weaken;
        [| apply IH; cbn [l_out l_from l_dist l_len];
           unfold is_unsigned, enough; lia].
      cbv beta. cbn [l_out l_from l_dist l_len].
      intros r s' [Hr' Hs']. split; [lia|].
      eapply within_trans; [exact W1|].
      eapply within_mono; [| | exact Hs']; lia.
  - apply chunk_memcpy_within; assumption.
Qed.

(** X15.  The doubling loop is short: entered with [dist >= 2] and
    [len >= 8] it comes to its head at most three times, whatever [len]
    is (four times with [dist == 1]), before it hands over to [set_bytes]
    or [chunk_memcpy] and the call returns [out + len], all stores being
    in [out, out + len). *)
Theorem doubling_loop_is_short cfg fuel l s :
  8 <= l_len l -> is_unsigned (l_len l) -> enough fuel (l_len l) ->
  (2 <= l_dist l ->
   returns (chunk_memset_loop cfg fuel 3 l s)
     (fun r s' => r = l_out l + l_len l /\
                  within (l_out l) (l_out l + l_len l) s s')) /\
  (1 <= l_dist l ->
   returns (chunk_memset_loop cfg fuel 4 l s)
     (fun r s' => r = l_out l + l_len l /\
                  within (l_out l) (l_out l + l_len l) s s')).
Proof.
  intros Hl Hu Hf. split; intros Hd.
  - apply chunk_memset_loop_rounds; try assumption; [lia|].
    unfold rounds. destruct (8 <=? l_dist l); [lia|].
    destruct (4 <=? l_dist l); [lia|].
    replace (2 <=? l_dist l) with true by (symmetry; apply Z.leb_le; lia). lia.
  - apply chunk_memset_loop_rounds; try assumption.
    unfold rounds. destruct (8 <=? l_dist l); [lia|].
    destruct (4 <=? l_dist l); [lia|]. destruct (2 <=? l_dist l); lia.
Qed.

Lemma doubling_loop_is_short_witness :
  8 <= l_len (mkLocals 100 98 2 4000) /\
  is_unsigned (l_len (mkLocals 100 98 2 4000)) /\
  enough 4001 (l_len (mkLocals 100 98 2 4000)) /\
  2 <= l_dist (mkLocals 100 98 2 4000) /\
  returns (chunk_memset_loop debug_cfg 4001 3 (mkLocals 100 98 2 4000) st0)
    (fun r s' => r = 100 + 4000 /\ within 100 (100 + 4000) st0 s').
Proof.
  split; [cbn; lia|]. split; [unfold is_unsigned; cbn; lia|].
  split; [unfold enough; cbn; lia|]. split; [cbn; lia|].
  exact (proj1 (doubling_loop_is_short debug_cfg 4001 (mkLocals 100 98 2 4000) st0
                  ltac:(cbn; lia) ltac:(unfold is_unsigned; cbn; lia)
                  ltac:(unfold enough; cbn; lia))
           ltac:(cbn; lia)).
Defined.



(** X17.  Inside the chunk width [fast_copy] is not a byte-by-byte copy,
    which is what the guard of [safe_copy] is for: on 8 bytes from
    [out - d], [1 <= d <= 3], the chunked copy reads destination bytes it
    has not produced yet, and [out[2d]] ends up holding the byte that was
    at [out[0]] before the call; whenever that byte differs from the one at
    [out - d], the result differs there from the byte copy. *)
Theorem fast_copy_reads_stale_bytes cfg fuel out d s :
  1 <= d <= 3 -> (1 <= fuel)%nat ->
  returns (fast_copy cfg fuel out (out - d) 8 s)
    (fun r s' =>
       r = out + 8 /\
       mem s' (out + 2 * d) = mem s out /\
       (mem s out <> mem s (out - d) ->
        mem s' (out + 2 * d) <>
        bytewise_copy (Z.to_nat 8) out (out - d) (mem s) (out + 2 * d))).
Proof.
  intros Hd Hf. destruct fuel as [|n]; [lia|].
  assert (returns (chunk_memcpy cfg (S n) out (out - d) 8 s)
            (fun r s' => r = out + 8 /\ mem s' (out + 2 * d) = mem s out)) as H.
  { remember (out + 2 * d) as k eqn:Hk.
    unfold chunk_memcpy, chunk_memcpy_gen. cbn. split; [lia|].
    mem_chain. f_equal. lia. }
  assert (returns (fast_copy cfg (S n) out (out - d) 8 s)
            (fun r s' => r = out + 8 /\ mem s' (out + 2 * d) = mem s out)) as H'.
  { unfold fast_copy. cbn [Z.ltb Z.compare Pos.compare Pos.compare_cont].
    destruct (SSE2 cfg); exact H. }
  eapply returns_weaken; [| exact H'].
  cbv beta. intros r s' [Hr Hm]. split; [assumption|]. split; [assumption|].
  intros Hne. rewrite Hm.
  rewrite bytewise_copy_behind by (unfold is_unsigned; lia).
  rewrite pattern_mem_in by lia.
  replace (out + 2 * d - out) with (0 + 2 * d) by lia.
  rewrite Z.mod_add by lia. rewrite Z.mod_0_l by lia.
  now rewrite Z.add_0_r.
Qed.

Lemma fast_copy_reads_stale_bytes_witness :
  1 <= 1 <= 3 /\ (1 <= 1)%nat /\
  returns (fast_copy release_cfg 1 100 (100 - 1) 8 st0)
    (fun r s' =>
       r = 100 + 8 /\
       mem s' (100 + 2 * 1) = mem st0 100 /\
       (mem st0 100 <> mem st0 (100 - 1) ->
        mem s' (100 + 2 * 1) <>
        bytewise_copy (Z.to_nat 8) 100 (100 - 1) (mem st0) (100 + 2 * 1))).
Proof.
  split; [lia|]. split; [lia|].
  exact (fast_copy_reads_stale_bytes release_cfg 1 100 1 st0 ltac:(lia) ltac:(lia)).
Defined.
